(** * A shallow embedding of the u-root syslinux configuration parser

    Source: [pkg/boot/syslinux/syslinux.go].

    The parser keeps one mutable [parser] value that every (recursive)
    [appendFile]/[append] call updates in place.  Here the value is threaded
    explicitly; a failing call hands back the state it had reached, because
    the [include] directive keeps working on that very object after it has
    swallowed an error. *)

From stdpp Require Import gmap strings list.
From Stdlib Require Import Ascii String.

Local Open Scope string_scope.
Local Open Scope list_scope.

(** ** Go's [strings] package, on byte strings

    Configuration text is taken to be ASCII: [unicode.IsSpace] and
    [strings.ToLower] are modelled on the ASCII range only. *)
Module strings.

Definition isSpace (c : ascii) : bool :=
  let n := nat_of_ascii c in
  Nat.eqb n 32 || (Nat.leb 9 n && Nat.leb n 13).

(** [strings.Fields]: maximal runs of non-space bytes.  [cur] is the field
    being read. *)
Fixpoint Fields_from (cur : string) (s : string) : list string :=
  match s with
  | EmptyString => if decide (cur = "") then [] else [cur]
  | String c s' =>
      if isSpace c
      then (if decide (cur = "") then Fields_from "" s'
            else cur :: Fields_from "" s')
      else Fields_from (cur +:+ String c "") s'
  end.

Definition Fields (s : string) : list string := Fields_from "" s.

(** [strings.Split(s, sep)] for a one-byte separator: always at least one
    piece. *)
Fixpoint Split (s : string) (sep : ascii) : list string :=
  match s with
  | EmptyString => [""]
  | String c s' =>
      if decide (c = sep) then "" :: Split s' sep
      else match Split s' sep with
           | x :: r => String c x :: r
           | [] => [String c ""]
           end
  end.

(** [strings.Join]. *)
Fixpoint Join (elems : list string) (sep : string) : string :=
  match elems with
  | [] => ""
  | [x] => x
  | x :: r => x +:+ sep +:+ Join r sep
  end.

Definition lower (c : ascii) : ascii :=
  let n := nat_of_ascii c in
  if Nat.leb 65 n && Nat.leb n 90 then ascii_of_nat (n + 32) else c.

Fixpoint ToLower (s : string) : string :=
  match s with
  | EmptyString => EmptyString
  | String c s' => String (lower c) (ToLower s')
  end.

Fixpoint Contains (s : string) (c : ascii) : bool :=
  match s with
  | EmptyString => false
  | String d s' => if decide (d = c) then true else Contains s' c
  end.

End strings.

(** ** Go's [path/filepath] package (Unix separators) *)
Module filepath.

(** One step of [Clean]'s scan: [out] is the stack of elements already
    written, innermost first. *)
Definition clean_step (rooted : bool) (out : list string) (el : string)
  : list string :=
  if decide (el = "") then out
  else if decide (el = ".") then out
  else if decide (el = "..") then
    match out with
    | top :: rest =>
        if decide (top = "..") then el :: out else rest
    | [] => if rooted then out else [el]
    end
  else el :: out.

Definition Clean (path : string) : string :=
  let rooted := match path with String "/" _ => true | _ => false end in
  let out := foldl (clean_step rooted) [] (strings.Split path "/") in
  let body := strings.Join (rev out) "/" in
  let res := if rooted then "/" +:+ body else body in
  if decide (res = "") then "." else res.

(** [Join]: the first non-empty element and all that follow, joined by
    the separator, then cleaned. *)
Fixpoint Join (elem : list string) : string :=
  match elem with
  | [] => ""
  | e :: rest =>
      if decide (e = "") then Join rest
      else Clean (strings.Join elem "/")
  end.

(** [Split]: the text up to and including the last separator, and the
    rest. *)
Fixpoint Split (path : string) : string * string :=
  match path with
  | EmptyString => ("", "")
  | String c s' =>
      let '(d, f) := Split s' in
      if decide (c = "/"%char) then (String c d, f)
      else if decide (d = "") then ("", String c f)
      else (String c d, f)
  end.

(** [Dir]: all but the last element, cleaned. *)
Definition Dir (path : string) : string := Clean (fst (Split path)).

End filepath.

(** ** URLs, errors and results *)

(** The fields of [net/url.URL] the parser reads and writes. *)
Record URL := mkURL { Scheme : string; Host : string; Path : string }.

#[global] Instance URL_eq_dec : EqDecision URL.
Proof. solve_decision. Defined.

(** The errors the package can hand back.  [MalformedReference] is the
    [fmt.Errorf] of [parseURL], [NoValidConfig] the one of
    [ParseLocalConfig]; the other two come from the fetcher. *)
Inductive error :=
| MalformedReference (surl : string)
| NotFound (u : URL)
| TransportError (u : URL)
| NoValidConfig (diskDir : string).

#[global] Instance error_eq_dec : EqDecision error.
Proof. solve_decision. Defined.

(** Modelled from the spec: [curl.IsURLError] is not part of the sources at
    hand; the spec names [NotFound] as the one error class that [include]
    and the local probe treat as non-fatal, every other class being fatal. *)
Definition IsURLError (e : error) : bool :=
  match e with
  | NotFound _ => true
  | _ => false
  end.

(** What a call into the fetcher or the URL resolver gives back. *)
Inductive fetched (A : Type) :=
| Got (a : A)
| Failed (e : error).
Arguments Got {A} a.
Arguments Failed {A} e.

(** What a call on the parser gives back.  [Err e s] carries the state the
    shared parser object is left in; [Panic] is a Go run-time panic (index
    out of range, nil dereference); [OutOfFuel] marks include nesting deeper
    than the fuel given. *)
Inductive result (S : Type) :=
| Ok (s : S)
| Err (e : error) (s : S)
| Panic
| OutOfFuel.
Arguments Ok {S} s.
Arguments Err {S} e s.
Arguments Panic {S}.
Arguments OutOfFuel {S}.

Inductive scope_t := scopeGlobal | scopeEntry.

#[global] Instance scope_eq_dec : EqDecision scope_t.
Proof. solve_decision. Defined.

Section Parser.

(** [io.ReaderAt] handles of lazily fetched kernels and initrds. *)
Context {handle : Type}.

(** [boot.LinuxImage], the fields this package sets. *)
Record LinuxImage := mkImage {
  Name : string;
  Cmdline : string;
  Kernel : option handle;
  Initrd : option handle;
}.

Record parser := mkParser {
  linuxEntries : gmap string LinuxImage;
  labelOrder : list string;
  defaultEntry : string;
  nerfDefaultEntry : string;
  globalAppend : string;
  scope : scope_t;
  curEntry : string;
  wd : option URL;
}.

(** The world around the parser: [url.Parse], the two operations of
    [curl.Schemes] ([Fetch] followed by [uio.ReadAll], and [LazyFetch]),
    and the order in which [range] walks a Go map, which the language
    leaves open: any enumeration of the keys. *)
Record Env := mkEnv {
  url_Parse : string → option URL;
  Fetch : URL → fetched string;
  LazyFetch : URL → fetched handle;
  range_keys : gmap string LinuxImage → list string;
  range_keys_perm : ∀ m, range_keys m ≡ₚ (map_to_list m).*1;
}.

Definition newParser (w : option URL) : parser :=
  {| linuxEntries := ∅; labelOrder := []; defaultEntry := "";
     nerfDefaultEntry := ""; globalAppend := ""; scope := scopeGlobal;
     curEntry := ""; wd := w |}.

(** Field updates of the parser object. *)
Definition set_linuxEntries (m : gmap string LinuxImage) (c : parser) :=
  mkParser m (labelOrder c) (defaultEntry c) (nerfDefaultEntry c)
           (globalAppend c) (scope c) (curEntry c) (wd c).
Definition set_defaultEntry (s : string) (c : parser) :=
  mkParser (linuxEntries c) (labelOrder c) s (nerfDefaultEntry c)
           (globalAppend c) (scope c) (curEntry c) (wd c).
Definition set_nerfDefaultEntry (s : string) (c : parser) :=
  mkParser (linuxEntries c) (labelOrder c) (defaultEntry c) s
           (globalAppend c) (scope c) (curEntry c) (wd c).
Definition set_globalAppend (s : string) (c : parser) :=
  mkParser (linuxEntries c) (labelOrder c) (defaultEntry c)
           (nerfDefaultEntry c) s (scope c) (curEntry c) (wd c).

Definition set_wd (w : option URL) (c : parser) :=
  mkParser (linuxEntries c) (labelOrder c) (defaultEntry c)
           (nerfDefaultEntry c) (globalAppend c) (scope c) (curEntry c) w.

Definition set_Name (s : string) (e : LinuxImage) :=
  mkImage s (Cmdline e) (Kernel e) (Initrd e).
Definition set_Cmdline (s : string) (e : LinuxImage) :=
  mkImage (Name e) s (Kernel e) (Initrd e).
Definition set_Kernel (k : handle) (e : LinuxImage) :=
  mkImage (Name e) (Cmdline e) (Some k) (Initrd e).
Definition set_Initrd (i : handle) (e : LinuxImage) :=
  mkImage (Name e) (Cmdline e) (Kernel e) (Some i).

(** The entries are held by pointer: writing a field of the entry found
    under [l] is seen through the map. *)
Definition store (l : string) (e : LinuxImage) (c : parser) : parser :=
  set_linuxEntries (<[l := e]> (linuxEntries c)) c.

Variable E : Env.

Definition parseURL (surl : string) (w : option URL) : fetched URL :=
  match url_Parse E surl with
  | None => Failed (MalformedReference surl)
  | Some u =>
      match w with
      | Some w =>
          if decide (Scheme u = "") then
            if decide (Host u = "") then
              Got {| Scheme := Scheme w; Host := Host w;
                     Path := filepath.Join
                               [Path w; filepath.Clean (Path u)] |}
            else Got {| Scheme := Scheme w; Host := Host u;
                        Path := Path u |}
          else Got u
      | None => Got u
      end
  end.

Definition getFile (c : parser) (url : string) : fetched handle :=
  match parseURL url (wd c) with
  | Failed e => Failed e
  | Got u => LazyFetch E u
  end.

(** *** The initrd loop at the end of [append] *)

(** The inner loop over the fields of one entry's command line; the entry
    is written through its pointer, so a failure leaves the entry as far
    as the loop got. *)
Fixpoint scan_cmdline (c : parser) (opts : list string) (e : LinuxImage)
  : result LinuxImage :=
  match opts with
  | [] => Ok e
  | opt :: rest =>
      match strings.Split opt "=" with
      | [] => Panic
      | k :: vs =>
          if decide (k = "initrd") then
            match vs with
            | [] => Panic
            | v :: _ =>
                match getFile c v with
                | Failed err => Err err e
                | Got i => scan_cmdline c rest (set_Initrd i e)
                end
            end
          else scan_cmdline c rest e
      end
  end.

(** The outer loop, over the labels in the order [range] yields them. *)
Fixpoint backfill_keys (keys : list string) (c : parser) : result parser :=
  match keys with
  | [] => Ok c
  | l :: rest =>
      match linuxEntries c !! l with
      | None => backfill_keys rest c
      | Some e =>
          match Initrd e with
          | Some _ => backfill_keys rest c
          | None =>
              match scan_cmdline c (strings.Fields (Cmdline e)) e with
              | Ok e' => backfill_keys rest (store l e' c)
              | Err err e' => Err err (store l e' c)
              | Panic => Panic
              | OutOfFuel => OutOfFuel
              end
          end
      end
  end.

Definition backfill (c : parser) : result parser :=
  backfill_keys (range_keys E (linuxEntries c)) c.

(** *** The directive switch of [append] *)

Definition fresh_entry (c : parser) (arg : string) : LinuxImage :=
  {| Name := arg; Cmdline := globalAppend c; Kernel := None;
     Initrd := None |}.

(** [inc] stands for the recursive call [c.appendFile(ctx, arg)]. *)
Definition exec_directive (inc : string → parser → result parser)
    (directive arg : string) (c : parser) : result parser :=
  if decide (directive = "default") then Ok (set_defaultEntry arg c)
  else if decide (directive = "nerfdefault") then
    Ok (set_nerfDefaultEntry arg c)
  else if decide (directive = "include") then
    match inc arg c with
    | Err err c' => if IsURLError err then Ok c' else Err err c'
    | r => r
    end
  else if decide (directive = "menu") then
    match strings.Fields arg with
    | [] => Ok c
    | o :: rest =>
        let sub := strings.ToLower o in
        if decide (sub = "label") then
          match linuxEntries c !! curEntry c with
          | Some e =>
              if decide (1 < Datatypes.length (o :: rest)) then
                Ok (store (curEntry c)
                          (set_Name (strings.Join rest " ") e) c)
              else Ok c
          | None => Ok c
          end
        else if decide (sub = "default") then
          match scope c with
          | scopeEntry => Ok (set_defaultEntry (curEntry c) c)
          | scopeGlobal => Ok c
          end
        else Ok c
    end
  else if decide (directive = "label") then
    Ok {| linuxEntries := <[arg := fresh_entry c arg]> (linuxEntries c);
          labelOrder := labelOrder c ++ [arg];
          defaultEntry := defaultEntry c;
          nerfDefaultEntry := nerfDefaultEntry c;
          globalAppend := globalAppend c;
          scope := scopeEntry;
          curEntry := arg;
          wd := wd c |}
  else if decide (directive = "kernel" ∨ directive = "linux") then
    match linuxEntries c !! curEntry c with
    | Some e =>
        match getFile c arg with
        | Failed err => Err err c
        | Got k => Ok (store (curEntry c) (set_Kernel k e) c)
        end
    | None => Ok c
    end
  else if decide (directive = "initrd") then
    match linuxEntries c !! curEntry c with
    | Some e =>
        match getFile c arg with
        | Failed err => Err err c
        | Got i => Ok (store (curEntry c) (set_Initrd i e) c)
        end
    | None => Ok c
    end
  else if decide (directive = "append") then
    match scope c with
    | scopeGlobal => Ok (set_globalAppend arg c)
    | scopeEntry =>
        match linuxEntries c !! curEntry c with
        | None => Panic
        | Some e =>
            if decide (arg = "-") then
              Ok (store (curEntry c) (set_Cmdline "" e) c)
            else Ok (store (curEntry c) (set_Cmdline arg e) c)
        end
    end
  else Ok c.

Definition exec_line (inc : string → parser → result parser)
    (line : string) (c : parser) : result parser :=
  match strings.Fields line with
  | [] | [_] => Ok c
  | [kv0; kv1] => exec_directive inc (strings.ToLower kv0) kv1 c
  | kv0 :: rest =>
      exec_directive inc (strings.ToLower kv0) (strings.Join rest " ") c
  end.

Fixpoint run_lines (inc : string → parser → result parser)
    (lines : list string) (c : parser) : result parser :=
  match lines with
  | [] => Ok c
  | line :: rest =>
      match exec_line inc line c with
      | Ok c' => run_lines inc rest c'
      | r => r
      end
  end.

Definition append_body (inc : string → parser → result parser)
    (config : string) (c : parser) : result parser :=
  match run_lines inc (strings.Split config "010") c with
  | Ok c' => backfill c'
  | r => r
  end.

Definition appendFile_body (inc : string → parser → result parser)
    (url : string) (c : parser) : result parser :=
  match parseURL url (wd c) with
  | Failed err => Err err c
  | Got u =>
      match Fetch E u with
      | Failed err => Err err c
      | Got config => append_body inc config c
      end
  end.

(** [appendFile] and [append] call each other; [fuel] bounds the depth of
    nested includes. *)
Fixpoint appendFile (fuel : nat) (url : string) (c : parser)
  : result parser :=
  match fuel with
  | 0 => OutOfFuel
  | S fuel' => appendFile_body (appendFile fuel') url c
  end.

Definition append (fuel : nat) (config : string) (c : parser)
  : result parser :=
  append_body (appendFile fuel) config c.

(** *** [dedupStrings] and [ParseConfigFile] *)

Fixpoint dedup_loop (seen : gset string) (l : list string)
  : list string :=
  match l with
  | [] => []
  | s :: rest =>
      if decide (s ∈ seen) then dedup_loop seen rest
      else s :: dedup_loop ({[s]} ∪ seen) rest
  end.

Definition dedupStrings (l : list string) : list string :=
  dedup_loop ∅ l.

(** The label order as [ParseConfigFile] extends it before
    deduplicating. *)
Definition ordered_labels (c : parser) : list string :=
  let o1 := if decide (0 < String.length (defaultEntry c))
            then defaultEntry c :: labelOrder c else labelOrder c in
  if decide (0 < String.length (nerfDefaultEntry c))
  then nerfDefaultEntry c :: o1 else o1.

Fixpoint collect_images (c : parser) (labels : list string)
  : list LinuxImage :=
  match labels with
  | [] => []
  | label :: rest =>
      match linuxEntries c !! label with
      | Some img => img :: collect_images c rest
      | None => collect_images c rest
      end
  end.

Definition images_of (c : parser) : list LinuxImage :=
  match labelOrder c with
  | [] => []
  | _ => collect_images c (dedupStrings (ordered_labels c))
  end.

Definition ParseConfigFile (fuel : nat) (url : string) (w : option URL)
  : result (list LinuxImage) :=
  match appendFile fuel url (newParser w) with
  | Ok c => Ok (images_of c)
  | Err err _ => Err err []
  | Panic => Panic
  | OutOfFuel => OutOfFuel
  end.

(** *** [probeIsolinuxFiles] and [ParseLocalConfig] *)

Definition probeIsolinuxFiles : list string :=
  let dirs := ["boot/isolinux"; "isolinux"; "boot/syslinux"; "syslinux";
               ""] in
  let confs := ["isolinux.cfg"; "syslinux.cfg"] in
  flat_map (λ dir,
    map (λ conf, if decide (dir = "") then conf
                 else filepath.Join [dir; conf]) confs) dirs.

(** One round of the loop of [ParseLocalConfig]: the call made for the
    candidate [relname]. *)
Definition try_candidate (fuel : nat) (diskDir relname : string)
  : result (list LinuxImage) :=
  let '(dir, name) := filepath.Split relname in
  let w := {| Scheme := "file"; Host := "";
              Path := filepath.Join [diskDir; dir] |} in
  ParseConfigFile fuel name (Some w).

Fixpoint probe_loop (fuel : nat) (diskDir : string)
    (candidates : list string) : result (list LinuxImage) :=
  match candidates with
  | [] => Err (NoValidConfig diskDir) []
  | relname :: rest =>
      match try_candidate fuel diskDir relname with
      | Err err imgs =>
          if IsURLError err then probe_loop fuel diskDir rest
          else Err err imgs
      | r => r
      end
  end.

Definition ParseLocalConfig (fuel : nat) (diskDir : string)
  : result (list LinuxImage) :=
  probe_loop fuel diskDir probeIsolinuxFiles.

End Parser.

Arguments LinuxImage : clear implicits.
Arguments parser : clear implicits.
Arguments Env : clear implicits.

(** ** A small concrete world, for running the parser

    References are plain relative paths (no scheme, no host), which
    [url.Parse] returns as the path; a lazily fetched handle is the URL it
    was asked for. *)
Module Sample.

Definition plain_Parse (s : string) : option URL := Some (mkURL "" "" s).

Definition unlines (lines : list string) : string :=
  strings.Join lines (String "010" "").

Fixpoint lookup_file (fs : list (string * string)) (path : string)
  : option string :=
  match fs with
  | [] => None
  | (p, content) :: rest =>
      if decide (p = path) then Some content else lookup_file rest path
  end.

(** [fs] are the files that exist, with their text; fetching a path in
    [broken] fails in transport; the blobs in [absent] cannot be
    opened. *)
Definition env (fs : list (string * string)) (broken absent : list string)
  : Env URL :=
  {| url_Parse := plain_Parse;
     Fetch := λ u,
       if decide (Path u ∈ broken) then Failed (TransportError u)
       else match lookup_file fs (Path u) with
            | Some content => Got content
            | None => Failed (NotFound u)
            end;
     LazyFetch := λ u,
       if decide (Path u ∈ absent) then Failed (NotFound u) else Got u;
     range_keys := λ m, (map_to_list m).*1;
     range_keys_perm := λ m, reflexivity _ |}.

Definition mnt : option URL := Some (mkURL "file" "" "/mnt").

End Sample.

(** ** Notions the properties are stated with *)
Section Notions.

Context {handle : Type}.
Implicit Types (c : parser handle) (e : LinuxImage handle).
Implicit Types (E : Env handle).

(** A property of the state a call leaves behind, whether it returned
    normally or with an error. *)
Definition res_holds {S : Type} (P : S → Prop) (r : result S) : Prop :=
  match r with
  | Ok s | Err _ s => P s
  | Panic | OutOfFuel => True
  end.

(** The call ended, normally or with an error, and left the state [s]. *)
Definition leaves {S : Type} (r : result S) (s : S) : Prop :=
  r = Ok s ∨ ∃ err, r = Err err s.

Definition preserves (P : parser handle → Prop)
    (f : parser handle → result (parser handle)) : Prop :=
  ∀ c, P c → res_holds P (f c).

(** An [include] that reads nothing. *)
Definition no_include (arg : string) c : result (parser handle) := Ok c.

(** The states a parse goes through: the new parser, and whatever a line
    or the initrd loop leaves behind, at any depth of inclusion. *)
Inductive reachable E : parser handle → Prop :=
| reach_new w : reachable E (newParser w)
| reach_line fuel line c c' :
    reachable E c →
    leaves (exec_line E (appendFile E fuel) line c) c' →
    reachable E c'
| reach_backfill c c' :
    reachable E c →
    leaves (backfill E c) c' →
    reachable E c'.

Definition entry_scope_has_entry c : Prop :=
  scope c = scopeEntry → is_Some (linuxEntries c !! curEntry c).

Definition entries_are_ordered c : Prop :=
  ∀ l, is_Some (linuxEntries c !! l) → l ∈ labelOrder c.

(** *** Command-line fields and [initrd] *)

(** A field the initrd loop acts on: the text before its first [=] is
    [initrd]. *)
Definition is_initrd_token (opt : string) : bool :=
  match strings.Split opt "=" with
  | k :: _ => bool_decide (k = "initrd")
  | [] => false
  end.

(** The value the loop takes from such a field: the text between the
    first [=] and the second. *)
Definition initrd_value (opt : string) : option string :=
  match strings.Split opt "=" with
  | k :: v :: _ => if decide (k = "initrd") then Some v else None
  | _ => None
  end.

Definition initrd_values (opts : list string) : list string :=
  omap initrd_value opts.

(** Nothing is left for the initrd loop to do. *)
Definition filled c : Prop :=
  ∀ l e, linuxEntries c !! l = Some e → Initrd e = None →
         Forall (λ opt, is_initrd_token opt = false)
                (strings.Fields (Cmdline e)).

(** Entries that differ at most in their initrd handle. *)
Definition same_but_initrd e e' : Prop :=
  Name e = Name e' ∧ Cmdline e = Cmdline e' ∧ Kernel e = Kernel e'.

(** The state a pass of the initrd loop leaves differs from the one it
    started in at most in the initrd handles of the entries. *)
Definition fill_rel c c' : Prop :=
  c' = set_linuxEntries (linuxEntries c') c ∧
  ∀ l, option_Forall2 same_but_initrd
         (linuxEntries c !! l) (linuxEntries c' !! l).

(** [inc2] agrees with [inc1] wherever [inc1] had fuel enough. *)
Definition refines
    (inc1 inc2 : string → parser handle → result (parser handle)) : Prop :=
  ∀ a c, inc1 a c ≠ OutOfFuel → inc2 a c = inc1 a c.

(** *** The output order, in the spec's words *)

(** Keep each identifier's first occurrence, in that relative order. *)
Fixpoint keep_first (l : list string) : list string :=
  match l with
  | [] => []
  | x :: r => x :: filter (λ y, y ≠ x) (keep_first r)
  end.

Definition candidate_order c : list string :=
  (if decide (nerfDefaultEntry c = "") then [] else [nerfDefaultEntry c])
  ++ (if decide (defaultEntry c = "") then [] else [defaultEntry c])
  ++ labelOrder c.

(** The identifiers that survive: deduplicated, and with an entry. *)
Definition output_labels c : list string :=
  filter (λ l, is_Some (linuxEntries c !! l))
         (keep_first (candidate_order c)).

Definition spec_output c : list (LinuxImage handle) :=
  omap (λ l, linuxEntries c !! l) (output_labels c).

(** *** Two readings of the spec that the code is compared with *)

Definition dir_of (u : URL) : URL :=
  {| Scheme := Scheme u; Host := Host u;
     Path := filepath.Dir (Path u) |}.

(** In the spec's words (4.3): each [append_file] call computes its own
    working directory from the directory portion of its own resolved
    URL. *)
Fixpoint appendFile_own_dir E (fuel : nat) (url : string) c
  : result (parser handle) :=
  match fuel with
  | 0 => OutOfFuel
  | S fuel' =>
      match parseURL E url (wd c) with
      | Failed err => Err err c
      | Got u =>
          match Fetch E u with
          | Failed err => Err err c
          | Got config =>
              match append_body E (appendFile_own_dir E fuel') config
                                (set_wd (Some (dir_of u)) c) with
              | Ok c' => Ok (set_wd (wd c) c')
              | Err err c' => Err err (set_wd (wd c) c')
              | r => r
              end
          end
      end
  end.

(** In the spec's words (4.5): directive processing, nested includes
    included, completes first; the initrd pass runs once, after it. *)
Fixpoint directives_only E (fuel : nat) (url : string) c
  : result (parser handle) :=
  match fuel with
  | 0 => OutOfFuel
  | S fuel' =>
      match parseURL E url (wd c) with
      | Failed err => Err err c
      | Got u =>
          match Fetch E u with
          | Failed err => Err err c
          | Got config =>
              run_lines E (directives_only E fuel')
                        (strings.Split config "010") c
          end
      end
  end.

Definition ParseConfigFile_backfill_once E (fuel : nat) (url : string)
    (w : option URL) : result (list (LinuxImage handle)) :=
  match directives_only E fuel url (newParser w) with
  | Ok c =>
      match backfill E c with
      | Ok c' => Ok (images_of c')
      | Err err _ => Err err []
      | Panic => Panic
      | OutOfFuel => OutOfFuel
      end
  | Err err _ => Err err []
  | Panic => Panic
  | OutOfFuel => OutOfFuel
  end.

(** Whether the local probe moves on to the next candidate. *)
Definition advances {S : Type} (r : result S) : bool :=
  match r with
  | Err err _ => IsURLError err
  | _ => false
  end.

End Notions.

(** The directive a line carries: the lower-cased first field and the
    remaining fields joined by single spaces; none for a line of fewer than
    two fields. *)
Definition directive_of (line : string) : option (string * string) :=
  match strings.Fields line with
  | kv0 :: kv1 :: rest =>
      Some (strings.ToLower kv0, strings.Join (kv1 :: rest) " ")
  | _ => None
  end.

(** Opens the directive switch into its branches. *)
Ltac directive_cases :=
  unfold exec_directive, no_include, getFile;
  repeat first
    [ progress simpl
    | case_decide
    | match goal with
      | |- context [match ?x with _ => _ end] => destruct x eqn:?
      end ].

(** ** Concrete configurations *)
Module Scenario.
Import Sample.

(** One label, declared on a new parser. *)
Definition one_label : parser URL :=
  {| linuxEntries :=
       {[ "A" := {| Name := "A"; Cmdline := ""; Kernel := None;
                    Initrd := None |} ]};
     labelOrder := ["A"]; defaultEntry := ""; nerfDefaultEntry := "";
     globalAppend := ""; scope := scopeEntry; curEntry := "A";
     wd := mnt |}.

(** A default pointing at the second of two labels, the first declared
    twice. *)
Definition default_world : Env URL :=
  env [("/mnt/main.cfg",
        unlines ["default B"; "label A"; "label B"; "label A";
                 "nerfdefault missing"])] [] [].

Definition default_final : parser URL :=
  {| linuxEntries :=
       {[ "A" := {| Name := "A"; Cmdline := ""; Kernel := None;
                    Initrd := None |};
          "B" := {| Name := "B"; Cmdline := ""; Kernel := None;
                    Initrd := None |} ]};
     labelOrder := ["A"; "B"; "A"]; defaultEntry := "B";
     nerfDefaultEntry := "missing";
     globalAppend := ""; scope := scopeEntry; curEntry := "A";
     wd := mnt |}.

Definition image (name cmdline : string) (kernel initrd : option string)
  : LinuxImage URL :=
  {| Name := name; Cmdline := cmdline;
     Kernel := mkURL "file" "" <$> kernel;
     Initrd := mkURL "file" "" <$> initrd |}.

(** An include two levels deep, with a file of the same name next to the
    top-level file and next to the included one. *)
Definition nested_world : Env URL :=
  env [("/mnt/main.cfg", "include sub/inc.cfg");
       ("/mnt/sub/inc.cfg", "include leaf.cfg");
       ("/mnt/leaf.cfg", "label TOP");
       ("/mnt/sub/leaf.cfg", "label OWN")] [] [].

(** A command line with two [initrd=] fields. *)
Definition two_initrd_world : Env URL :=
  env [("/mnt/main.cfg",
        unlines ["label A"; "append initrd=a initrd=b"])] [] [].

Definition two_initrd_before : parser URL :=
  {| linuxEntries := {[ "A" := image "A" "initrd=a initrd=b" None None ]};
     labelOrder := ["A"]; defaultEntry := ""; nerfDefaultEntry := "";
     globalAppend := ""; scope := scopeEntry; curEntry := "A";
     wd := mnt |}.

Definition two_initrd_after : parser URL :=
  set_linuxEntries
    {[ "A" := image "A" "initrd=a initrd=b" None (Some "/mnt/b") ]}
    two_initrd_before.

(** A command line with the bare word [initrd]. *)
Definition bare_initrd_world : Env URL :=
  env [("/mnt/main.cfg", unlines ["label A"; "append initrd"])] [] [].



(** An include of a file that is absent, and one whose fetch breaks. *)
Definition missing_include_world : Env URL :=
  env [("/mnt/main.cfg",
        unlines ["label A"; "include missing.cfg"; "label C"])] [] [].

Definition broken_include_world : Env URL :=
  env [("/mnt/main.cfg",
        unlines ["label A"; "include broken.cfg"; "label C"])]
      ["/mnt/broken.cfg"] [].

(** A command line rewritten after an include. *)
Definition early_fill_world : Env URL :=
  env [("/mnt/main.cfg",
        unlines ["label A"; "append initrd=foo"; "include inc.cfg";
                 "append initrd=bar"]);
       ("/mnt/inc.cfg", "")] [] [].

(** A disk with one configuration, and one whose third candidate breaks
    in transport. *)
Definition probe_world : Env URL :=
  env [("/mnt/syslinux/syslinux.cfg", unlines ["label A"; "kernel k"])]
      [] [].

Definition broken_probe_world : Env URL :=
  env [("/mnt/syslinux/syslinux.cfg", unlines ["label A"; "kernel k"])]
      ["/mnt/isolinux/isolinux.cfg"] [].

(** A label with kernel and initrd. *)
Definition full_entry_world : Env URL :=
  env [("/mnt/main.cfg", unlines ["label A"; "kernel k"; "initrd i"])]
      [] [].

(** A configuration that includes itself. *)
Definition cyclic_world : Env URL :=
  env [("/mnt/main.cfg", unlines [""; "include main.cfg"; "label A"])]
      [] [].

End Scenario.

(** ** Further notions: states before the first label, labels and entries *)
Section MoreNotions.

Context {handle : Type}.
Implicit Types (c : parser handle) (e : LinuxImage handle).

(** Before the first label there is nothing: no entry, no label, no current
    label. *)
Definition nothing_in_global_scope c : Prop :=
  scope c = scopeGlobal →
  linuxEntries c = ∅ ∧ labelOrder c = [] ∧ curEntry c = "".

(** Every label of the label order has an entry. *)
Definition labels_have_entries c : Prop :=
  ∀ l, l ∈ labelOrder c → is_Some (linuxEntries c !! l).

(** The first entry met along a list of identifiers. *)
Fixpoint first_entry c (labels : list string) : option (LinuxImage handle) :=
  match labels with
  | [] => None
  | l :: rest =>
      match linuxEntries c !! l with
      | Some e => Some e
      | None => first_entry c rest
      end
  end.

(** What the initrd loop may do to an entry: set or replace the initrd
    handle of an entry that had none. *)
Definition kept e e' : Prop :=
  same_but_initrd e e' ∧ (is_Some (Initrd e) → e' = e).

(** The initrd loop can deal with a field: it is no [initrd] field, or it
    has a value and that value can be fetched. *)
Definition fetchable (E : Env handle) c (opt : string) : Prop :=
  is_initrd_token opt = true →
  ∃ v h, initrd_value opt = Some v ∧ getFile E c v = Got h.

(** The handles of an entry are handles the fetcher handed out. *)
Definition handles_fetched (E : Env handle) e : Prop :=
  (∀ h, Kernel e = Some h → ∃ u, LazyFetch E u = Got h)
  ∧ (∀ h, Initrd e = Some h → ∃ u, LazyFetch E u = Got h).

Definition all_handles_fetched (E : Env handle) c : Prop :=
  ∀ l e, linuxEntries c !! l = Some e → handles_fetched E e.

(** An error the world around the parser produced: a reference that
    [url.Parse] refuses, or a failure of one of the two fetch operations. *)
Definition from_world (E : Env handle) (err : error) : Prop :=
  (∃ s, url_Parse E s = None ∧ err = MalformedReference s)
  ∨ (∃ u, Fetch E u = Failed err)
  ∨ (∃ u, LazyFetch E u = Failed err).

(** A property of the error a call returns, if it returns one. *)
Definition err_holds {S : Type} (Q : error → Prop) (r : result S) : Prop :=
  match r with
  | Err err _ => Q err
  | _ => True
  end.

End MoreNotions.

(** A string without white space. *)
Fixpoint no_space (s : string) : bool :=
  match s with
  | EmptyString => true
  | String ch s' => negb (strings.isSpace ch) && no_space s'
  end.

(** What [strings.Fields] yields: non-empty, and without white space. *)
Definition field_ok (s : string) : Prop := s ≠ "" ∧ no_space s = true.

(** The keywords the directive switch of [append] knows. *)
Definition keywords : list string :=
  ["default"; "nerfdefault"; "include"; "menu"; "label"; "kernel"; "linux";
   "initrd"; "append"].

(** ** The pure helpers of the [ip] command

    Source: [cmds/core/ip/ip.go]. *)
Module ip.

(** [strings.HasPrefix]. *)
Fixpoint HasPrefix (s prefix : string) : bool :=
  match prefix with
  | EmptyString => true
  | String b p =>
      match s with
      | String a s' => if decide (a = b) then HasPrefix s' p else false
      | EmptyString => false
      end
  end.

(** The loop of [one] over the rest [cmds] of the slice, whose head has
    index [i]: [x] is the index of the last match, [n] the number of
    matches so far. *)
Fixpoint one_loop (cmd : string) (cmds : list string) (i x n : nat)
  : nat * nat :=
  match cmds with
  | [] => (x, n)
  | v :: rest =>
      if HasPrefix v cmd then one_loop cmd rest (S i) i (S n)
      else one_loop cmd rest (S i) x n
  end.

(** [one]: [None] stands for the panic of an index out of range. *)
Definition one (cmd : string) (cmds : list string) : option string :=
  let '(x, n) := one_loop cmd cmds 0 0 0 in
  if decide (n = 1) then cmds !! x else Some "".

(** [encoding/hex]: the value of a hexadecimal digit. *)
Definition fromHexChar (ch : ascii) : option Z :=
  let n := Z.of_nat (nat_of_ascii ch) in
  if decide (48 ≤ n ≤ 57)%Z then Some (n - 48)%Z
  else if decide (97 ≤ n ≤ 102)%Z then Some (n - 97 + 10)%Z
  else if decide (65 ≤ n ≤ 70)%Z then Some (n - 65 + 10)%Z
  else None.

Inductive hex_error :=
| InvalidByteError (b : ascii)
| ErrLength.

(** [hex.Decode] as [hex.DecodeString] uses it: the bytes decoded, and the
    error that stopped the decoding, if any.  An invalid digit is reported
    before an odd length. *)
Fixpoint Decode (src : string) : list Z * option hex_error :=
  match src with
  | EmptyString => ([], None)
  | String a EmptyString =>
      match fromHexChar a with
      | None => ([], Some (InvalidByteError a))
      | Some _ => ([], Some ErrLength)
      end
  | String a (String b rest) =>
      match fromHexChar a with
      | None => ([], Some (InvalidByteError a))
      | Some va =>
          match fromHexChar b with
          | None => ([], Some (InvalidByteError b))
          | Some vb =>
              let '(bytes, err) := Decode rest in
              (Z.lor (Z.shiftl va 4) vb :: bytes, err)
          end
      end
  end.

Inductive ip_error :=
| HexError (err : hex_error)
| InvalidLength (n : nat).

Inductive outcome (A : Type) :=
| Done (a : A)
| Fail (err : ip_error)
| Crash.
Arguments Done {A} a.
Arguments Fail {A} err.
Arguments Crash {A}.

(** The swap loop of [hexToBytes], [steps] rounds from index [i] on; both
    right-hand sides are read before either element is written.  [None]
    stands for the panic of an index out of range. *)
Fixpoint swap_loop (steps i : nat) (x : list Z) : option (list Z) :=
  match steps with
  | 0 => Some x
  | S steps' =>
      let j := (Datatypes.length x - i - 1)%nat in
      match x !! j, x !! i with
      | Some b, Some a => swap_loop steps' (S i) (<[j := a]> (<[i := b]> x))
      | _, _ => None
      end
  end.

Definition hexToBytes (xs : string) : outcome (list Z) :=
  match Decode xs with
  | (_, Some err) => Fail (HexError err)
  | (x, None) =>
      if decide (Datatypes.length x ≠ 4%nat ∧ Datatypes.length x ≠ 16%nat)
      then Fail (InvalidLength (Datatypes.length x))
      else match swap_loop (Datatypes.length x / 2) 0 x with
           | Some r => Done r
           | None => Crash
           end
  end.

End ip.

(** ** Sanity checks of the library models *)

Example Fields_ex :
  strings.Fields "  append   a=b	c " = ["append"; "a=b"; "c"].
Proof. reflexivity. Qed.

Example Split_ex : strings.Split "initrd=a=b" "=" = ["initrd"; "a"; "b"].
Proof. reflexivity. Qed.

Example Clean_ex :
  map filepath.Clean ["a//b/./c/.."; "/../a"; ""; "../../x"; "a/../.."; "/"]
  = ["a/b"; "/a"; "."; "../../x"; ".."; "/"].
Proof. reflexivity. Qed.

Example Join_ex :
  map filepath.Join [["/mnt"; "boot/isolinux/"]; ["/mnt"; ""]; [""; "x"]; [""; ""]]
  = ["/mnt/boot/isolinux"; "/mnt"; "x"; ""].
Proof. reflexivity. Qed.

Example Split_path_ex :
  map filepath.Split ["boot/isolinux/isolinux.cfg"; "isolinux.cfg"; "a/"]
  = [("boot/isolinux/", "isolinux.cfg"); ("", "isolinux.cfg"); ("a/", "")].
Proof. reflexivity. Qed.

Example keep_first_ex :
  keep_first ["b"; "a"; "b"; "c"; "a"] = ["b"; "a"; "c"]
  ∧ dedupStrings ["b"; "a"; "b"; "c"; "a"] = ["b"; "a"; "c"].
Proof. split; vm_compute; reflexivity. Qed.

Example probeIsolinuxFiles_ex :
  probeIsolinuxFiles
  = ["boot/isolinux/isolinux.cfg"; "boot/isolinux/syslinux.cfg";
     "isolinux/isolinux.cfg"; "isolinux/syslinux.cfg";
     "boot/syslinux/isolinux.cfg"; "boot/syslinux/syslinux.cfg";
     "syslinux/isolinux.cfg"; "syslinux/syslinux.cfg";
     "isolinux.cfg"; "syslinux.cfg"].
Proof. reflexivity. Qed.

Example directive_of_ex :
  map directive_of ["LABEL  linux "; "append  a=b   c"; "label"; ""]
  = [Some ("label", "linux"); Some ("append", "a=b c"); None; None].
Proof. reflexivity. Qed.

Example one_ex :
  map (λ cmd, ip.one cmd ["addr"; "route"; "link"; "neigh"])
      ["a"; "route"; "li"; "x"; ""]
  = [Some "addr"; Some "route"; Some "link"; Some ""; Some ""]
  ∧ ip.one "add" ["address"; "add"] = Some "".
Proof. split; reflexivity. Qed.

Example hexToBytes_ex :
  ip.hexToBytes "0100007F" = ip.Done [127; 0; 0; 1]%Z
  ∧ ip.hexToBytes "0100007" = ip.Fail (ip.HexError ip.ErrLength)
  ∧ ip.hexToBytes "01zz007F"
    = ip.Fail (ip.HexError (ip.InvalidByteError "z"))
  ∧ ip.hexToBytes "0100" = ip.Fail (ip.InvalidLength 2).
Proof. repeat split; vm_compute; reflexivity. Qed.

(** ** Basic facts about the loops *)
Section Basics.

Context {handle : Type}.
Implicit Types (c : parser handle) (e : LinuxImage handle).
Implicit Types (E : Env handle).
Implicit Types (inc : string → parser handle → result (parser handle)).

Lemma leaves_res_holds {S : Type} (P : S → Prop) (r : result S) s :
  res_holds P r → leaves r s → P s.
Proof. intros H [-> | [err ->]]; exact H. Qed.

Lemma Join_single (x : string) sep : strings.Join [x] sep = x.
Proof. reflexivity. Qed.

(** A line with a keyword and at least one more field runs the directive
    on the remaining fields joined by single spaces. *)
Lemma exec_line_directive E inc line kv0 kv1 rest c :
  strings.Fields line = kv0 :: kv1 :: rest →
  exec_line E inc line c
  = exec_directive E inc (strings.ToLower kv0)
                   (strings.Join (kv1 :: rest) " ") c.
Proof.
  intros H. unfold exec_line. rewrite H. destruct rest; reflexivity.
Qed.

Lemma exec_line_short E inc line c :
  (Datatypes.length (strings.Fields line) ≤ 1)%nat →
  exec_line E inc line c = Ok c.
Proof.
  unfold exec_line. destruct (strings.Fields line) as [|a [|b r]];
    simpl; intros; try reflexivity; lia.
Qed.

Lemma run_lines_app E inc pre post c :
  run_lines E inc (pre ++ post) c
  = match run_lines E inc pre c with
    | Ok c' => run_lines E inc post c'
    | r => r
    end.
Proof.
  revert c. induction pre as [|l pre IH]; intros c; simpl; [done|].
  destruct (exec_line E inc l c); auto.
Qed.

(** Every directive but [include] ignores the recursive call. *)
Lemma exec_directive_no_include E inc d arg c :
  d ≠ "include" →
  exec_directive E inc d arg c = exec_directive E no_include d arg c.
Proof.
  intros Hd. unfold exec_directive.
  repeat (case_decide; [try reflexivity; try contradiction|]); reflexivity.
Qed.

Lemma exec_directive_include E inc arg c :
  exec_directive E inc "include" arg c
  = match inc arg c with
    | Err err c' => if IsURLError err then Ok c' else Err err c'
    | r => r
    end.
Proof. reflexivity. Qed.

(** *** Lifting a property of the single steps to whole runs *)

Section Preservation.
Variable E : Env handle.
Variable P : parser handle → Prop.
Hypothesis P_directive :
  ∀ d arg, preserves P (exec_directive E no_include d arg).
Hypothesis P_backfill : preserves P (backfill E).

Lemma exec_directive_preserves inc d arg :
  (∀ a, preserves P (inc a)) → preserves P (exec_directive E inc d arg).
Proof.
  intros Hinc c Hc. destruct (decide (d = "include")) as [->|Hd].
  - rewrite exec_directive_include. specialize (Hinc arg c Hc).
    destruct (inc arg c) as [c'|err c'| |]; simpl in *; auto.
    destruct (IsURLError err); simpl; auto.
  - rewrite exec_directive_no_include by done. by apply P_directive.
Qed.

Lemma exec_line_preserves inc line :
  (∀ a, preserves P (inc a)) → preserves P (exec_line E inc line).
Proof.
  intros Hinc c Hc. unfold exec_line.
  destruct (strings.Fields line) as [|kv0 [|kv1 [|kv2 rest]]];
    simpl; auto; by apply exec_directive_preserves.
Qed.

Lemma run_lines_preserves inc lines :
  (∀ a, preserves P (inc a)) → preserves P (run_lines E inc lines).
Proof.
  intros Hinc. induction lines as [|l lines IH]; intros c Hc; simpl; auto.
  pose proof (exec_line_preserves inc l Hinc c Hc) as Hl.
  destruct (exec_line E inc l c) as [c'|err c'| |]; simpl in *; auto.
Qed.

Lemma append_body_preserves inc config :
  (∀ a, preserves P (inc a)) → preserves P (append_body E inc config).
Proof.
  intros Hinc c Hc. unfold append_body.
  pose proof (run_lines_preserves inc (strings.Split config "010")
                Hinc c Hc) as Hr.
  destruct (run_lines E inc _ c) as [c'|err c'| |]; simpl in *; auto.
Qed.

Lemma appendFile_preserves fuel url : preserves P (appendFile E fuel url).
Proof.
  revert url. induction fuel as [|fuel IH]; intros url c Hc; simpl; auto.
  unfold appendFile_body.
  destruct (parseURL E url (wd c)) as [u|err]; simpl; auto.
  destruct (Fetch E u) as [config|err]; simpl; auto.
  by apply append_body_preserves.
Qed.

Lemma append_preserves fuel config : preserves P (append E fuel config).
Proof.
  apply append_body_preserves. intros a. apply appendFile_preserves.
Qed.

Lemma reachable_holds c :
  (∀ w, P (newParser w)) → reachable E c → P c.
Proof.
  intros Hnew. induction 1 as [w|fuel line c c' _ IH Hl|c c' _ IH Hb].
  - apply Hnew.
  - eapply leaves_res_holds; [|exact Hl].
    apply exec_line_preserves; [|exact IH].
    intros a. apply appendFile_preserves.
  - eapply leaves_res_holds; [|exact Hb]. by apply P_backfill.
Qed.
End Preservation.

End Basics.

(** ** The initrd loop *)
Section Backfill.

Context {handle : Type}.
Implicit Types (c : parser handle) (e : LinuxImage handle).
Variable E : Env handle.

Lemma same_but_initrd_refl e : same_but_initrd e e.
Proof. by repeat split. Qed.

Lemma same_but_initrd_trans e1 e2 e3 :
  same_but_initrd e1 e2 → same_but_initrd e2 e3 → same_but_initrd e1 e3.
Proof. intros (?&?&?) (?&?&?). repeat split; congruence. Qed.

Lemma fill_rel_refl c : fill_rel c c.
Proof.
  split; [by destruct c|]. intros l.
  destruct (linuxEntries c !! l); constructor. apply same_but_initrd_refl.
Qed.

Lemma fill_rel_trans c1 c2 c3 :
  fill_rel c1 c2 → fill_rel c2 c3 → fill_rel c1 c3.
Proof.
  intros [H1 F1] [H2 F2]. split.
  - rewrite H2 at 1. rewrite H1. reflexivity.
  - intros l. specialize (F1 l). specialize (F2 l).
    destruct F1 as [a b Hab|]; inversion F2; subst; constructor.
    eapply same_but_initrd_trans; eauto.
Qed.

Lemma fill_rel_store c l e e' :
  linuxEntries c !! l = Some e → same_but_initrd e e' →
  fill_rel c (store l e' c).
Proof.
  intros Hl He. split; [reflexivity|]. intros k. simpl.
  destruct (decide (l = k)) as [->|Hk].
  - rewrite lookup_insert_eq, Hl. by constructor.
  - rewrite lookup_insert_ne by done.
    destruct (linuxEntries c !! k); constructor.
    apply same_but_initrd_refl.
Qed.

Lemma getFile_wd c1 c2 v : wd c1 = wd c2 → getFile E c1 v = getFile E c2 v.
Proof. unfold getFile. by intros ->. Qed.

Lemma scan_cmdline_wd c1 c2 opts e :
  wd c1 = wd c2 → scan_cmdline E c1 opts e = scan_cmdline E c2 opts e.
Proof.
  intros Hwd. revert e. induction opts as [|opt opts IH]; intros e; simpl;
    [done|].
  destruct (strings.Split opt "=") as [|k vs]; [done|].
  case_decide; [|apply IH].
  destruct vs as [|v vs]; [done|].
  rewrite (getFile_wd c1 c2 v Hwd). destruct (getFile E c2 v); [apply IH|done].
Qed.

Lemma scan_cmdline_frame c opts e :
  res_holds (same_but_initrd e) (scan_cmdline E c opts e).
Proof.
  revert e. induction opts as [|opt opts IH]; intros e; simpl.
  { apply same_but_initrd_refl. }
  destruct (strings.Split opt "=") as [|k vs]; [done|].
  case_decide; [|apply IH].
  destruct vs as [|v vs]; [done|].
  destruct (getFile E c v) as [i|err]; simpl; [|apply same_but_initrd_refl].
  specialize (IH (set_Initrd i e)).
  destruct (scan_cmdline E c opts (set_Initrd i e)); simpl in *; auto;
    (eapply same_but_initrd_trans; [|exact IH]); by repeat split.
Qed.

Lemma scan_cmdline_keeps_initrd c opts e :
  is_Some (Initrd e) →
  res_holds (λ e', is_Some (Initrd e')) (scan_cmdline E c opts e).
Proof.
  revert e. induction opts as [|opt opts IH]; intros e He; simpl; [done|].
  destruct (strings.Split opt "=") as [|k vs]; [done|].
  case_decide; [|by apply IH].
  destruct vs as [|v vs]; [done|].
  destruct (getFile E c v) as [i|err]; simpl; [|done].
  apply IH. simpl. eauto.
Qed.


Lemma scan_cmdline_unfilled c opts e e' :
  scan_cmdline E c opts e = Ok e' → Initrd e' = None →
  Forall (λ opt, is_initrd_token opt = false) opts.
Proof.
  revert e. induction opts as [|opt opts IH]; intros e; simpl.
  { constructor. }
  unfold is_initrd_token at 1.
  destruct (strings.Split opt "=") as [|k vs] eqn:Hsp; [done|].
  case_decide as Hk.
  - destruct vs as [|v vs]; [done|].
    destruct (getFile E c v) as [i|err]; [|done].
    intros Hs Hnone.
    pose proof (scan_cmdline_keeps_initrd c opts (set_Initrd i e)) as Hk'.
    rewrite Hs in Hk'. simpl in Hk'. destruct Hk' as [x Hx]; [eauto|].
    congruence.
  - intros Hs Hnone. constructor; [|by eapply IH].
    unfold is_initrd_token. rewrite Hsp. by apply bool_decide_eq_false.
Qed.

Lemma backfill_keys_frame keys c :
  res_holds (fill_rel c) (backfill_keys E keys c).
Proof.
  revert c. induction keys as [|k keys IH]; intros c; simpl.
  { apply fill_rel_refl. }
  destruct (linuxEntries c !! k) as [ek|] eqn:Hk; [|apply IH].
  destruct (Initrd ek); [apply IH|].
  pose proof (scan_cmdline_frame c (strings.Fields (Cmdline ek)) ek) as Hs.
  destruct (scan_cmdline E c _ ek) as [ek'|err ek'| |]; simpl in *; auto.
  - specialize (IH (store k ek' c)).
    pose proof (fill_rel_store c k ek ek' Hk Hs) as Hst.
    destruct (backfill_keys E keys (store k ek' c)); simpl in *; auto;
      eapply fill_rel_trans; eauto.
  - by eapply fill_rel_store.
Qed.

Lemma backfill_frame c : res_holds (fill_rel c) (backfill E c).
Proof. apply backfill_keys_frame. Qed.

Lemma in_tail_iff (l k : string) (keys : list string) (Q : Prop) :
  l ≠ k → (l ∈ k :: keys ∧ Q) ↔ (l ∈ keys ∧ Q).
Proof.
  intros Hne. rewrite elem_of_cons. split; intros [H HQ]; split; auto.
  by destruct H.
Qed.

(** What a completed pass over distinct keys did to each entry. *)
Lemma backfill_keys_ok keys c c' l e :
  backfill_keys E keys c = Ok c' → NoDup keys →
  linuxEntries c !! l = Some e →
  ∃ e', linuxEntries c' !! l = Some e' ∧
        if decide (l ∈ keys ∧ Initrd e = None)
        then scan_cmdline E c (strings.Fields (Cmdline e)) e = Ok e'
        else e' = e.
Proof.
  revert c e. induction keys as [|k keys IH]; intros c e;
    cbn [backfill_keys].
  { intros [= <-] _ Hl. exists e. split; [done|].
    rewrite decide_False; [done|]. intros [H _]. by inversion H. }
  intros Hb Hnd Hl. apply NoDup_cons in Hnd as [Hk Hnd].
  destruct (linuxEntries c !! k) as [ek|] eqn:Hek.
  2:{ destruct (IH c e Hb Hnd Hl) as (e' & He' & Hc). exists e'.
      split; [done|]. assert (l ≠ k) by congruence.
      by rewrite (decide_ext _ _ _ _ (in_tail_iff l k keys _ H)). }
  destruct (Initrd ek) as [i|] eqn:Hi.
  { destruct (IH c e Hb Hnd Hl) as (e' & He' & Hc). exists e'.
    split; [done|].
    destruct (decide (l = k)) as [->|Hne].
    - assert (e = ek) as -> by congruence.
      rewrite decide_False in Hc by (intros [? _]; done).
      rewrite decide_False by (intros [_ ?]; congruence). done.
    - by rewrite (decide_ext _ _ _ _ (in_tail_iff l k keys _ Hne)). }
  destruct (scan_cmdline E c (strings.Fields (Cmdline ek)) ek)
    as [ek'|err ek'| |] eqn:Hs; try done.
  destruct (decide (l = k)) as [->|Hne].
  - assert (e = ek) as -> by congruence.
    destruct (IH (store k ek' c) ek' Hb Hnd) as (e' & He' & Hc).
    { simpl. apply lookup_insert_eq. }
    rewrite decide_False in Hc by (intros [? _]; done). subst e'.
    exists ek'. split; [done|].
    rewrite decide_True by (split; [set_solver|done]). done.
  - destruct (IH (store k ek' c) e Hb Hnd) as (e' & He' & Hc).
    { simpl. by rewrite lookup_insert_ne. }
    exists e'. split; [done|].
    rewrite (scan_cmdline_wd (store k ek' c) c) in Hc by done.
    by rewrite (decide_ext _ _ _ _ (in_tail_iff l k keys _ Hne)).
Qed.

Lemma range_keys_NoDup (m : gmap string (LinuxImage handle)) :
  NoDup (range_keys E m).
Proof.
  rewrite (range_keys_perm E m). apply NoDup_fst_map_to_list.
Qed.

Lemma range_keys_elem (m : gmap string (LinuxImage handle)) l :
  l ∈ range_keys E m ↔ is_Some (m !! l).
Proof.
  rewrite (range_keys_perm E m). rewrite list_elem_of_fmap. split.
  - intros [[k v] [-> Hkv]]. apply elem_of_map_to_list in Hkv. eauto.
  - intros [v Hv]. exists (l, v). split; [done|].
    by apply elem_of_map_to_list.
Qed.

Lemma backfill_ok c c' l e :
  backfill E c = Ok c' → linuxEntries c !! l = Some e →
  ∃ e', linuxEntries c' !! l = Some e' ∧
        match Initrd e with
        | Some _ => e' = e
        | None => scan_cmdline E c (strings.Fields (Cmdline e)) e = Ok e'
        end.
Proof.
  intros Hb Hl.
  destruct (backfill_keys_ok _ c c' l e Hb (range_keys_NoDup _) Hl)
    as (e' & He' & Hc).
  exists e'. split; [done|]. destruct (Initrd e) as [i|] eqn:Hi.
  - rewrite decide_False in Hc by (intros [_ ?]; done). done.
  - rewrite decide_True in Hc; [done|]. split; [|done].
    apply range_keys_elem. eauto.
Qed.

Lemma backfill_filled c c' : backfill E c = Ok c' → filled c'.
Proof.
  intros Hb l e' Hl' Hnone.
  pose proof (backfill_frame c) as Hf. rewrite Hb in Hf. simpl in Hf.
  destruct Hf as [_ Hf]. specialize (Hf l). rewrite Hl' in Hf.
  inversion Hf as [e e'' Hsame Heq1 Heq2|]; subst.
  symmetry in Heq1.
  destruct (backfill_ok c c' l e Hb Heq1) as (e2 & He2 & Hc).
  assert (e2 = e') as -> by congruence.
  destruct (Initrd e) as [i|] eqn:Hi.
  - subst e'. congruence.
  - destruct Hsame as (_ & <- & _).
    by eapply scan_cmdline_unfilled.
Qed.

End Backfill.

(** ** Invariants of the parser state *)
Section Invariants.

Context {handle : Type}.
Implicit Types (c : parser handle) (e : LinuxImage handle).
Variable E : Env handle.

Lemma fill_rel_lookup c c' l :
  fill_rel c c' →
  is_Some (linuxEntries c' !! l) ↔ is_Some (linuxEntries c !! l).
Proof.
  intros [_ H]. specialize (H l).
  destruct H; split; intros [? ?]; eauto; done.
Qed.

Lemma backfill_preserves (P : parser handle → Prop) :
  (∀ c c', fill_rel c c' → P c → P c') → preserves P (backfill E).
Proof.
  intros HP c Hc. pose proof (backfill_frame E c) as Hf.
  destruct (backfill E c); simpl in *; eauto.
Qed.

(** *** In entry scope the current label has an entry *)

Lemma entry_scope_directive d arg :
  preserves entry_scope_has_entry (exec_directive E no_include d arg).
Proof.
  intros c Hc. unfold entry_scope_has_entry in *.
  directive_cases; try done; intros Hs; try (by apply Hc);
    try congruence; try (eexists; eassumption);
    try (rewrite lookup_insert_eq; by eauto); by destruct (Hc Hs).
Qed.

Lemma entry_scope_backfill :
  preserves entry_scope_has_entry (backfill E).
Proof.
  apply backfill_preserves. intros c c' Hf Hc Hs.
  destruct Hf as [Heq Hl]. rewrite Heq in Hs |- *. simpl in *.
  specialize (Hc Hs). specialize (Hl (curEntry c)).
  destruct Hl; [eauto|]. by destruct Hc.
Qed.

(** *** Every entry's label is in the label order *)

Lemma entries_ordered_directive d arg :
  preserves entries_are_ordered (exec_directive E no_include d arg).
Proof.
  intros c Hc. unfold entries_are_ordered in *.
  directive_cases; try done; try (by apply Hc); intros lbl Hlbl.
  all: try (destruct (decide (curEntry c = lbl)) as [<-|Hne];
            [apply Hc; eexists; eassumption
            |rewrite lookup_insert_ne in Hlbl by done; by apply Hc]).
  destruct (decide (arg = lbl)) as [<-|Hne].
  - apply elem_of_app. right. by apply list_elem_of_singleton.
  - rewrite lookup_insert_ne in Hlbl by done.
    apply elem_of_app. left. by apply Hc.
Qed.

Lemma entries_ordered_backfill :
  preserves entries_are_ordered (backfill E).
Proof.
  apply backfill_preserves. intros c c' Hf Hc l Hl.
  apply (fill_rel_lookup c c' l Hf) in Hl. destruct Hf as [-> _]. simpl.
  by apply Hc.
Qed.

(** *** The working directory never changes *)

Lemma wd_directive w d arg :
  preserves (λ c, wd c = w) (exec_directive E no_include d arg).
Proof. intros c Hc. directive_cases; done. Qed.

Lemma wd_backfill w : preserves (λ c, wd c = w) (backfill E).
Proof.
  apply backfill_preserves. intros c c' [-> _] Hc. done.
Qed.

(** *** Once in entry scope, scope and global append stay *)

Lemma frozen_directive g d arg :
  preserves (λ c, scope c = scopeEntry ∧ globalAppend c = g)
            (exec_directive E no_include d arg).
Proof.
  intros c [Hs Hg]. directive_cases; try done; congruence.
Qed.

Lemma frozen_backfill g :
  preserves (λ c, scope c = scopeEntry ∧ globalAppend c = g) (backfill E).
Proof.
  apply backfill_preserves. intros c c' [-> _] Hc. done.
Qed.

(** *** No label ever loses its entry *)

Lemma keys_kept_directive (m0 : gmap string (LinuxImage handle)) d arg :
  preserves (λ c, ∀ l, is_Some (m0 !! l) → is_Some (linuxEntries c !! l))
            (exec_directive E no_include d arg).
Proof.
  intros c Hc. directive_cases; try done; intros lbl Hlbl;
    apply lookup_insert_is_Some'; right; by apply Hc.
Qed.

Lemma keys_kept_backfill (m0 : gmap string (LinuxImage handle)) :
  preserves (λ c, ∀ l, is_Some (m0 !! l) → is_Some (linuxEntries c !! l))
            (backfill E).
Proof.
  apply backfill_preserves. intros c c' Hf Hc l Hl.
  apply (fill_rel_lookup c c' l Hf). by apply Hc.
Qed.

End Invariants.

(** ** Fuel, and the order of the output *)
Section Order.

Context {handle : Type}.
Implicit Types (c : parser handle) (e : LinuxImage handle).
Implicit Types (inc : string → parser handle → result (parser handle)).
Variable E : Env handle.

Lemma exec_line_directive_of inc line d arg c :
  directive_of line = Some (d, arg) →
  exec_line E inc line c = exec_directive E inc d arg c.
Proof.
  unfold directive_of. intros H.
  destruct (strings.Fields line) as [|kv0 [|kv1 rest]] eqn:HF; try done.
  injection H as <- <-. by apply exec_line_directive.
Qed.

(** *** More fuel does not change a result *)

Lemma exec_directive_refines inc1 inc2 d arg c :
  refines inc1 inc2 →
  exec_directive E inc1 d arg c ≠ OutOfFuel →
  exec_directive E inc2 d arg c = exec_directive E inc1 d arg c.
Proof.
  intros Hr. destruct (decide (d = "include")) as [->|Hd].
  - rewrite !exec_directive_include. intros H.
    rewrite Hr; [done|]. intros Heq. by rewrite Heq in H.
  - intros _. rewrite (exec_directive_no_include E inc1) by done.
    by rewrite (exec_directive_no_include E inc2).
Qed.

Lemma exec_line_refines inc1 inc2 line c :
  refines inc1 inc2 →
  exec_line E inc1 line c ≠ OutOfFuel →
  exec_line E inc2 line c = exec_line E inc1 line c.
Proof.
  intros Hr. unfold exec_line.
  destruct (strings.Fields line) as [|kv0 [|kv1 [|kv2 rest]]]; try done;
    by apply exec_directive_refines.
Qed.

Lemma run_lines_refines inc1 inc2 lines c :
  refines inc1 inc2 →
  run_lines E inc1 lines c ≠ OutOfFuel →
  run_lines E inc2 lines c = run_lines E inc1 lines c.
Proof.
  intros Hr. revert c. induction lines as [|l lines IH]; intros c; simpl;
    [done|].
  intros H. rewrite (exec_line_refines inc1 inc2 l c Hr).
  - destruct (exec_line E inc1 l c); auto.
  - intros Heq. by rewrite Heq in H.
Qed.

Lemma append_body_refines inc1 inc2 config c :
  refines inc1 inc2 →
  append_body E inc1 config c ≠ OutOfFuel →
  append_body E inc2 config c = append_body E inc1 config c.
Proof.
  intros Hr. unfold append_body. intros H.
  rewrite (run_lines_refines inc1 inc2 _ c Hr); [done|].
  intros Heq. by rewrite Heq in H.
Qed.

Lemma appendFile_S fuel url c :
  appendFile E fuel url c ≠ OutOfFuel →
  appendFile E (S fuel) url c = appendFile E fuel url c.
Proof.
  revert url c. induction fuel as [|fuel IH]; intros url c; [done|].
  intros H. change (appendFile_body E (appendFile E (S fuel)) url c
                    = appendFile_body E (appendFile E fuel) url c).
  change (appendFile_body E (appendFile E fuel) url c ≠ OutOfFuel) in H.
  unfold appendFile_body in *.
  destruct (parseURL E url (wd c)) as [u|err]; [|done].
  destruct (Fetch E u) as [config|err]; [|done].
  apply append_body_refines; [|done]. intros a c0. apply IH.
Qed.

Lemma appendFile_more_fuel fuel fuel' url c :
  (fuel ≤ fuel')%nat → appendFile E fuel url c ≠ OutOfFuel →
  appendFile E fuel' url c = appendFile E fuel url c.
Proof.
  induction 1 as [|fuel' Hle IH]; [done|]. intros H.
  rewrite appendFile_S; [by apply IH|]. by rewrite IH.
Qed.

(** *** Reachable states *)

Lemma run_lines_reachable fuel lines c c' :
  reachable E c → leaves (run_lines E (appendFile E fuel) lines c) c' →
  reachable E c'.
Proof.
  revert c. induction lines as [|l lines IH]; intros c Hc; simpl.
  { intros [[= <-]|[err [=]]]. done. }
  destruct (exec_line E (appendFile E fuel) l c) as [c1|err c1| |] eqn:Hl.
  - apply IH. eapply reach_line; [exact Hc|]. left. exact Hl.
  - intros [[=]|[err' [= _ <-]]].
    eapply reach_line; [exact Hc|]. right. eauto.
  - intros [[=]|[err' [=]]].
  - intros [[=]|[err' [=]]].
Qed.

Lemma appendFile_reachable fuel url c c' :
  reachable E c → leaves (appendFile E fuel url c) c' → reachable E c'.
Proof.
  destruct fuel as [|fuel]; simpl.
  { intros _ [[=]|[err [=]]]. }
  unfold appendFile_body, append_body. intros Hc.
  destruct (parseURL E url (wd c)) as [u|err].
  2:{ intros [[=]|[err' [= _ <-]]]. done. }
  destruct (Fetch E u) as [config|err].
  2:{ intros [[=]|[err' [= _ <-]]]. done. }
  destruct (run_lines E (appendFile E fuel) _ c) as [c1|err c1| |] eqn:Hr.
  - intros Hb. eapply reach_backfill; [|exact Hb].
    eapply run_lines_reachable; [exact Hc|]. left. exact Hr.
  - intros [[=]|[err' [= _ <-]]].
    eapply run_lines_reachable; [exact Hc|]. right. eauto.
  - intros [[=]|[err' [=]]].
  - intros [[=]|[err' [=]]].
Qed.

Lemma reachable_entry_scope c : reachable E c → entry_scope_has_entry c.
Proof.
  apply (reachable_holds E entry_scope_has_entry).
  - apply entry_scope_directive.
  - apply entry_scope_backfill.
  - intros w. by intros [=].
Qed.

Lemma reachable_ordered c : reachable E c → entries_are_ordered c.
Proof.
  apply (reachable_holds E entries_are_ordered).
  - apply entries_ordered_directive.
  - apply entries_ordered_backfill.
  - intros w l [x Hx]. simpl in Hx. by rewrite lookup_empty in Hx.
Qed.

(** *** [dedupStrings] keeps first occurrences *)

Lemma keep_first_filter (P : string → Prop) `{∀ x, Decision (P x)}
    (l : list string) :
  keep_first (filter P l) = filter P (keep_first l).
Proof.
  induction l as [|x r IH]; [done|]. simpl.
  rewrite !filter_cons. destruct (decide (P x)) as [HP|HP]; simpl.
  - rewrite IH. f_equal. rewrite !list_filter_filter.
    apply list_filter_iff. intros y. tauto.
  - rewrite IH. rewrite list_filter_filter.
    apply list_filter_iff. intros y. split; [|tauto].
    intros Hy. split; [done|]. by intros ->.
Qed.

Lemma dedup_loop_keep_first (seen : gset string) (l : list string) :
  dedup_loop seen l = filter (λ y, y ∉ seen) (keep_first l).
Proof.
  revert seen. induction l as [|x r IH]; intros seen; [done|]. simpl.
  rewrite filter_cons. destruct (decide (x ∈ seen)) as [Hx|Hx].
  - rewrite decide_False by tauto. rewrite IH, list_filter_filter.
    apply list_filter_iff. intros y. split; [|tauto].
    intros Hy. split; [done|]. by intros ->.
  - rewrite decide_True by done. f_equal.
    rewrite IH, list_filter_filter. apply list_filter_iff.
    intros y. rewrite not_elem_of_union, not_elem_of_singleton. tauto.
Qed.

Lemma dedupStrings_keep_first (l : list string) :
  dedupStrings l = keep_first l.
Proof.
  unfold dedupStrings. rewrite dedup_loop_keep_first.
  induction (keep_first l) as [|x r IH]; [done|].
  rewrite filter_cons, decide_True by apply not_elem_of_empty.
  by rewrite IH.
Qed.

Lemma elem_of_keep_first (l : list string) x :
  x ∈ keep_first l ↔ x ∈ l.
Proof.
  induction l as [|y r IH]; [done|]. simpl.
  rewrite !elem_of_cons, list_elem_of_filter, IH.
  destruct (decide (x = y)); tauto.
Qed.

Lemma NoDup_keep_first (l : list string) : NoDup (keep_first l).
Proof.
  induction l as [|x r IH]; simpl; constructor.
  - rewrite list_elem_of_filter. tauto.
  - by apply NoDup_filter.
Qed.

(** A repeated identifier at the end changes nothing. *)
Lemma keep_first_snoc (l : list string) x :
  x ∈ l → keep_first (l ++ [x]) = keep_first l.
Proof.
  induction l as [|y r IH]; [by intros H; inversion H|].
  intros Hx. simpl. f_equal.
  destruct (decide (x = y)) as [->|Hne].
  - rewrite <- !keep_first_filter. f_equal.
    rewrite filter_app, filter_cons, decide_False by tauto.
    by rewrite filter_nil, app_nil_r.
  - rewrite IH; [done|]. apply elem_of_cons in Hx as [?|?]; done.
Qed.

Lemma ordered_labels_candidate c : ordered_labels c = candidate_order c.
Proof.
  unfold ordered_labels, candidate_order.
  assert (∀ s : string, (0 < String.length s)%nat ↔ s ≠ "") as Hlen.
  { intros [|a s]; simpl; split; try done; try lia. }
  destruct (decide (nerfDefaultEntry c = "")) as [Hn|Hn];
    destruct (decide (defaultEntry c = "")) as [Hd|Hd];
    repeat case_decide; try done; exfalso;
    repeat match goal with
           | H : (0 < String.length _)%nat |- _ => apply Hlen in H
           | H : ¬ (0 < String.length _)%nat |- _ => rewrite Hlen in H
           end; tauto.
Qed.

Lemma collect_images_omap c (labels : list string) :
  collect_images c labels
  = omap (λ l, linuxEntries c !! l)
         (filter (λ l, is_Some (linuxEntries c !! l)) labels).
Proof.
  induction labels as [|l r IH]; [done|]. simpl. rewrite filter_cons.
  destruct (linuxEntries c !! l) as [img|] eqn:Hl.
  - rewrite decide_True by eauto. simpl. by rewrite Hl, IH.
  - rewrite decide_False by (by intros [? ?]). done.
Qed.

Lemma images_of_spec c :
  entries_are_ordered c → images_of c = spec_output c.
Proof.
  intros Hord. unfold images_of, spec_output, output_labels.
  destruct (labelOrder c) as [|l0 r] eqn:Hlo.
  - assert (∀ l, ¬ is_Some (linuxEntries c !! l)) as Hnone.
    { intros l Hl. apply Hord in Hl. rewrite Hlo in Hl. by inversion Hl. }
    induction (keep_first (candidate_order c)) as [|x xs IH]; [done|].
    rewrite filter_cons, decide_False by apply Hnone. exact IH.
  - rewrite collect_images_omap, dedupStrings_keep_first.
    by rewrite ordered_labels_candidate.
Qed.

Lemma images_of_spec_nonempty c :
  labelOrder c ≠ [] → images_of c = spec_output c.
Proof.
  intros Hne. unfold images_of, spec_output, output_labels.
  destruct (labelOrder c) as [|l0 r] eqn:Hlo; [done|].
  rewrite collect_images_omap, dedupStrings_keep_first.
  by rewrite ordered_labels_candidate.
Qed.

Lemma NoDup_output_labels c : NoDup (output_labels c).
Proof. apply NoDup_filter, NoDup_keep_first. Qed.

End Order.

(** ** The properties of the parser *)
Section Claims.

Context {handle : Type}.
Implicit Types (c : parser handle) (e : LinuxImage handle).
Implicit Types (inc : string → parser handle → result (parser handle)).
Implicit Types (E : Env handle).

Local Arguments getFile : simpl never.

(** C10: in every state a parse goes through, entry scope implies that
    the current label has an entry; hence the [append] directive, which
    in entry scope writes through the entry of the current label without
    a check, never dereferences a missing entry; no line removes a label
    from the entries; and no directive but [label] (and what an [include]
    brings in) changes the scope or the current label. *)
Theorem C10_entry_scope_has_entry E c :
  reachable E c →
  entry_scope_has_entry c
  ∧ (∀ inc arg, exec_directive E inc "append" arg c ≠ Panic)
  ∧ (∀ fuel line c' l,
       leaves (exec_line E (appendFile E fuel) line c) c' →
       is_Some (linuxEntries c !! l) → is_Some (linuxEntries c' !! l))
  ∧ (∀ inc d arg c',
       d ≠ "label" → d ≠ "include" →
       leaves (exec_directive E inc d arg c) c' →
       scope c' = scope c ∧ curEntry c' = curEntry c).
Proof.
  intros Hr. pose proof (reachable_entry_scope E c Hr) as Hinv.
  split; [exact Hinv|]. split; [|split].
  - intros inc arg. unfold exec_directive. simpl.
    destruct (scope c) eqn:Hs; [done|].
    destruct (Hinv Hs) as [e ->]. by case_decide.
  - intros fuel line c' l Hl Hsome.
    eapply (leaves_res_holds
              (λ c0, ∀ l, is_Some (linuxEntries c !! l)
                          → is_Some (linuxEntries c0 !! l)));
      [|exact Hl|exact Hsome].
    apply exec_line_preserves; [apply keys_kept_directive| |done].
    intros a. apply appendFile_preserves;
      [apply keys_kept_directive|apply keys_kept_backfill].
  - intros inc d arg c' Hlabel Hinc Hl.
    rewrite exec_directive_no_include in Hl by done.
    eapply (leaves_res_holds
              (λ c0, scope c0 = scope c ∧ curEntry c0 = curEntry c));
      [|exact Hl].
    clear Hl. directive_cases; done.
Qed.

(** C5: the images [ParseConfigFile] returns for a final parser state
    are the entries of the identifiers in
    [nerf default if non-empty] ++ [default if non-empty] ++ label order,
    each kept at its first occurrence, those without an entry dropped;
    no identifier is output twice. *)
Theorem C5_output_order E fuel url w c :
  appendFile E fuel url (newParser w) = Ok c →
  ParseConfigFile E fuel url w = Ok (spec_output c)
  ∧ NoDup (output_labels c).
Proof.
  intros Hc. split; [|apply NoDup_output_labels].
  unfold ParseConfigFile. rewrite Hc. f_equal.
  apply images_of_spec. apply (reachable_ordered E).
  eapply appendFile_reachable; [apply reach_new|]. left. exact Hc.
Qed.

(** C6: an [append] in entry scope replaces the command line of the
    current entry: after [append X] in global scope, [label A] and
    [append Y] (with [Y] other than the lone dash that clears), the
    command line of [A] is [Y], and the initrd loop leaves it so.  The
    global append is only written in global scope, where it touches no
    entry; a label takes a copy of it when declared; and from the first
    label on, whatever lines follow, it never changes again. *)
Theorem C6_append_replaces E :
  (∀ inc c0 l1 l2 l3 X A Y,
     scope c0 = scopeGlobal →
     directive_of l1 = Some ("append", X) →
     directive_of l2 = Some ("label", A) →
     directive_of l3 = Some ("append", Y) →
     Y ≠ "-" →
     ∃ c3, run_lines E inc [l1; l2; l3] c0 = Ok c3
           ∧ linuxEntries c3 !! A
             = Some {| Name := A; Cmdline := Y; Kernel := None;
                       Initrd := None |}
           ∧ ∀ c', leaves (backfill E c3) c' →
                   Cmdline <$> linuxEntries c' !! A = Some Y)
  ∧ (∀ inc arg c,
       scope c = scopeGlobal →
       ∃ c', exec_directive E inc "append" arg c = Ok c'
             ∧ globalAppend c' = arg
             ∧ linuxEntries c' = linuxEntries c)
  ∧ (∀ inc A c,
       ∃ c', exec_directive E inc "label" A c = Ok c'
             ∧ Cmdline <$> linuxEntries c' !! A = Some (globalAppend c))
  ∧ (∀ fuel line c,
       scope c = scopeEntry →
       res_holds (λ c', scope c' = scopeEntry
                        ∧ globalAppend c' = globalAppend c)
                 (exec_line E (appendFile E fuel) line c)).
Proof.
  repeat split.
  - intros inc c0 l1 l2 l3 X A Y Hs H1 H2 H3 HY. simpl.
    rewrite (exec_line_directive_of E inc l1 _ _ c0 H1).
    unfold exec_directive at 1. simpl. rewrite Hs.
    rewrite (exec_line_directive_of E inc l2 _ _ _ H2).
    unfold exec_directive at 1. simpl.
    rewrite (exec_line_directive_of E inc l3 _ _ _ H3).
    unfold exec_directive at 1. simpl. rewrite lookup_insert_eq.
    rewrite decide_False by done.
    eexists. split; [reflexivity|]. simpl. split.
    + by rewrite lookup_insert_eq.
    + intros c' Hc'.
      match type of Hc' with
      | leaves (backfill E ?c3) _ =>
          pose proof (backfill_frame E c3) as Hf
      end.
      apply (leaves_res_holds _ _ _ Hf) in Hc' as [_ Hl].
      specialize (Hl A). simpl in Hl. rewrite lookup_insert_eq in Hl.
      inversion Hl as [a b (_ & Hcmd & _) Ha Hb|]; subst. simpl in *.
      by rewrite <- Hcmd.
  - intros inc arg c Hs. unfold exec_directive. simpl. rewrite Hs.
    by eexists.
  - intros inc A c. unfold exec_directive. simpl. eexists.
    split; [reflexivity|]. simpl. by rewrite lookup_insert_eq.
  - intros fuel line c Hs.
    apply (exec_line_preserves E
             (λ c', scope c' = scopeEntry
                    ∧ globalAppend c' = globalAppend c)).
    + apply frozen_directive.
    + intros a. apply appendFile_preserves;
        [apply frozen_directive|apply frozen_backfill].
    + done.
Qed.

(** A label and its kernel, from any state. *)
Lemma label_kernel E inc c l1 l2 A K h :
  directive_of l1 = Some ("label", A) →
  directive_of l2 = Some ("kernel", K) →
  getFile E c K = Got h →
  run_lines E inc [l1; l2] c
  = Ok {| linuxEntries :=
            <[A := {| Name := A; Cmdline := globalAppend c;
                      Kernel := Some h; Initrd := None |}]>
              (linuxEntries c);
          labelOrder := labelOrder c ++ [A];
          defaultEntry := defaultEntry c;
          nerfDefaultEntry := nerfDefaultEntry c;
          globalAppend := globalAppend c;
          scope := scopeEntry;
          curEntry := A;
          wd := wd c |}.
Proof.
  intros H1 H2 Hk. simpl.
  rewrite (exec_line_directive_of E inc l1 _ _ c H1).
  unfold exec_directive at 1. simpl.
  rewrite (exec_line_directive_of E inc l2 _ _ _ H2).
  unfold exec_directive at 1. simpl. rewrite lookup_insert_eq.
  rewrite (getFile_wd E _ c K) by reflexivity. rewrite Hk. simpl.
  unfold store, set_linuxEntries. simpl. by rewrite insert_insert_eq.
Qed.

(** C7: declaring a label again gives it a fresh entry and leaves its
    place in the output where the first declaration put it: after
    [label A], [kernel K1], [label A], [kernel K2] the entry of [A] has
    the kernel of [K2], the output holds [A] exactly once, and the order
    of the output is the one the first declaration alone gives. *)
Theorem C7_redeclare E inc c0 l1 l2 l3 l4 A K1 K2 h1 h2 :
  directive_of l1 = Some ("label", A) →
  directive_of l2 = Some ("kernel", K1) →
  directive_of l3 = Some ("label", A) →
  directive_of l4 = Some ("kernel", K2) →
  getFile E c0 K1 = Got h1 →
  getFile E c0 K2 = Got h2 →
  ∃ c2 c4,
    run_lines E inc [l1; l2] c0 = Ok c2
    ∧ run_lines E inc [l1; l2; l3; l4] c0 = Ok c4
    ∧ linuxEntries c4 !! A
      = Some {| Name := A; Cmdline := globalAppend c0;
                Kernel := Some h2; Initrd := None |}
    ∧ labelOrder c4 = labelOrder c0 ++ [A; A]
    ∧ output_labels c4 = output_labels c2
    ∧ A ∈ output_labels c4
    ∧ NoDup (output_labels c4)
    ∧ images_of c4 = spec_output c4.
Proof.
  intros H1 H2 H3 H4 Hk1 Hk2.
  pose proof (label_kernel E inc c0 l1 l2 A K1 h1 H1 H2 Hk1) as R12.
  eexists. eexists. split; [exact R12|].
  change [l1; l2; l3; l4] with ([l1; l2] ++ [l3; l4]).
  rewrite run_lines_app, R12.
  rewrite (label_kernel E inc _ l3 l4 A K2 h2 H3 H4)
    by (rewrite <- Hk2; by apply getFile_wd).
  split; [reflexivity|]. simpl.
  split; [by rewrite lookup_insert_eq|].
  split; [by rewrite <- app_assoc|].
  assert (A ∈ labelOrder c0 ++ [A]) as HA.
  { apply elem_of_app. right. by apply list_elem_of_singleton. }
  split; [|split; [|split; [apply NoDup_output_labels|]]].
  - unfold output_labels, candidate_order. simpl.
    rewrite !app_assoc. rewrite keep_first_snoc.
    + apply list_filter_iff. intros l.
      rewrite !lookup_insert_is_Some'. tauto.
    + rewrite <- !app_assoc. do 2 (apply elem_of_app; right). exact HA.
  - unfold output_labels, candidate_order. simpl.
    apply list_elem_of_filter. split.
    + rewrite lookup_insert_eq. eauto.
    + apply elem_of_keep_first. do 2 (apply elem_of_app; right).
      apply elem_of_app. left. exact HA.
  - apply images_of_spec_nonempty. simpl.
    intros Hnil. by apply app_eq_nil in Hnil as [_ ?].
Qed.

(** C1 (as the code has it): the working directory is the one the parser
    was created with; no call changes it, so every nested [appendFile]
    resolves its reference against that same directory, at whatever
    depth. *)
Theorem C1_single_working_directory E fuel (c : parser handle) :
  (∀ url, res_holds (λ c', wd c' = wd c) (appendFile E fuel url c))
  ∧ (∀ line, res_holds (λ c', wd c' = wd c)
                       (exec_line E (appendFile E fuel) line c))
  ∧ (∀ arg, appendFile E (S fuel) arg c
            = match parseURL E arg (wd c) with
              | Failed err => Err err c
              | Got u =>
                  match Fetch E u with
                  | Failed err => Err err c
                  | Got config => append E fuel config c
                  end
              end).
Proof.
  split; [|split].
  - intros url. apply (appendFile_preserves E (λ c', wd c' = wd c));
      [apply wd_directive|apply wd_backfill|done].
  - intros line. apply (exec_line_preserves E (λ c', wd c' = wd c));
      [apply wd_directive| |done].
    intros a. apply appendFile_preserves;
      [apply wd_directive|apply wd_backfill].
  - reflexivity.
Qed.


(** A field without [=] is its own single piece. *)
Lemma Split_no_sep (s : string) (sep : ascii) :
  strings.Contains s sep = false → strings.Split s sep = [s].
Proof.
  induction s as [|ch s IH]; simpl; [done|].
  case_decide; [done|]. intros Hs. by rewrite (IH Hs).
Qed.

(** Fields without [=], other than the bare word, are passed over. *)
Lemma scan_cmdline_skips_plain E c opt rest e :
  strings.Contains opt "=" = false → opt ≠ "initrd" →
  scan_cmdline E c (opt :: rest) e = scan_cmdline E c rest e.
Proof.
  intros Hc Hne. simpl. rewrite (Split_no_sep _ _ Hc).
  by rewrite decide_False.
Qed.


(** C8 (as the code has it): the initrd loop ends every [append] call,
    that of the top-level file and that of each included file: whenever
    [appendFile] or [append] returns normally, at any depth, no entry
    without initrd is left with an [initrd] field in its command
    line. *)
Theorem C8_backfill_ends_every_append E fuel c c' :
  (∀ url, appendFile E fuel url c = Ok c' → filled c')
  ∧ (∀ config, append E fuel config c = Ok c' → filled c').
Proof.
  assert (∀ inc config, append_body E inc config c = Ok c' → filled c')
    as Hbody.
  { intros inc config. unfold append_body.
    destruct (run_lines E inc _ c) as [c1|err c1| |]; try done.
    apply backfill_filled. }
  split.
  - intros url. destruct fuel as [|fuel]; [done|]. simpl.
    unfold appendFile_body.
    destruct (parseURL E url (wd c)) as [u|err]; [|done].
    destruct (Fetch E u) as [config|err]; [|done]. apply Hbody.
  - intros config. apply Hbody.
Qed.

Lemma probe_loop_app E fuel diskDir pre post :
  Forall (λ p, advances (try_candidate E fuel diskDir p) = true) pre →
  probe_loop E fuel diskDir (pre ++ post) = probe_loop E fuel diskDir post.
Proof.
  induction 1 as [|p pre Hp _ IH]; [done|]. simpl.
  destruct (try_candidate E fuel diskDir p) as [imgs|err imgs| |];
    try done.
  simpl in Hp. by rewrite Hp.
Qed.

(** C9: the local probe moves on to the next candidate only when the
    parse of a candidate fails with a [NotFound]-class error; anything
    else a candidate gives, error or images, is the result of
    [ParseLocalConfig] at once; when every candidate fails with
    [NotFound], the result is the error that no valid configuration was
    found. *)
Theorem C9_local_probe E fuel diskDir :
  (∀ pre cand post,
     probeIsolinuxFiles = pre ++ cand :: post →
     Forall (λ p, advances (try_candidate E fuel diskDir p) = true) pre →
     advances (try_candidate E fuel diskDir cand) = false →
     ParseLocalConfig E fuel diskDir = try_candidate E fuel diskDir cand)
  ∧ (Forall (λ p, advances (try_candidate E fuel diskDir p) = true)
            probeIsolinuxFiles →
     ParseLocalConfig E fuel diskDir = Err (NoValidConfig diskDir) [])
  ∧ (∀ r : result (list (LinuxImage handle)),
       advances r = true ↔ ∃ u imgs, r = Err (NotFound u) imgs).
Proof.
  split; [|split].
  - intros pre cand post Hsplit Hpre Hcand. unfold ParseLocalConfig.
    rewrite Hsplit, (probe_loop_app E fuel diskDir pre _ Hpre). simpl.
    destruct (try_candidate E fuel diskDir cand) as [imgs|err imgs| |];
      try done.
    simpl in Hcand. by rewrite Hcand.
  - intros Hall. unfold ParseLocalConfig.
    rewrite <- (app_nil_r probeIsolinuxFiles).
    by rewrite (probe_loop_app E fuel diskDir _ [] Hall).
  - intros r. split.
    + destruct r as [imgs|err imgs| |]; try done.
      destruct err; try done. eauto.
    + by intros (u & imgs & ->).
Qed.

End Claims.

(** C3: the initrd loop at the bare field [initrd], which has no [=]: the
    second piece of the split field is read although there is none, and the
    parse ends in a run-time panic; so for the configuration [label A],
    [append initrd]. *)
Theorem C3_bare_initrd_panics :
  (∀ (handle : Type) (E : Env handle) c rest e,
     scan_cmdline E c ("initrd" :: rest) e = Panic)
  ∧ ParseConfigFile Scenario.bare_initrd_world 1 "main.cfg" Sample.mnt
    = Panic.
Proof. split; [reflexivity|]. vm_compute. reflexivity. Qed.

(** ** Concrete runs *)

Import Sample Scenario.

(** The include inside [sub/inc.cfg] is read from the directory of the
    top-level parse, not from that of the including file. *)
Lemma C1_counterexample :
  parseURL nested_world "sub/inc.cfg" mnt
  = Got (mkURL "file" "" "/mnt/sub/inc.cfg")
  ∧ parseURL nested_world "leaf.cfg"
             (Some (dir_of (mkURL "file" "" "/mnt/sub/inc.cfg")))
    = Got (mkURL "file" "" "/mnt/sub/leaf.cfg")
  ∧ ParseConfigFile nested_world 3 "main.cfg" mnt
    = Ok [image "TOP" "" None None]
  ∧ images_of <$> (match appendFile_own_dir nested_world 3 "main.cfg"
                                            (newParser mnt) with
                   | Ok c => Some c
                   | _ => None
                   end)
    = Some [image "OWN" "" None None]
  ∧ appendFile nested_world 3 "main.cfg" (newParser mnt)
    ≠ appendFile_own_dir nested_world 3 "main.cfg" (newParser mnt).
Proof.
  repeat split; try (vm_compute; reflexivity).
  vm_compute. by intros [=].
Defined.





Lemma C5_witness :
  ParseConfigFile default_world 1 "main.cfg" mnt
  = Ok (spec_output default_final)
  ∧ NoDup (output_labels default_final).
Proof.
  apply (C5_output_order default_world 1 "main.cfg" mnt).
  vm_compute. reflexivity.
Defined.

Lemma C6_witness :
  ∃ c3, run_lines (env [] [] []) no_include
                  ["append X"; "label A"; "APPEND Y  Z"] (newParser mnt)
        = Ok c3
        ∧ linuxEntries c3 !! "A" = Some (image "A" "Y Z" None None)
        ∧ ∀ c', leaves (backfill (env [] [] []) c3) c' →
                Cmdline <$> linuxEntries c' !! "A" = Some "Y Z".
Proof.
  apply (proj1 (C6_append_replaces (env [] [] [])) no_include (newParser mnt)
           "append X" "label A" "APPEND Y  Z" "X" "A" "Y Z");
    try (vm_compute; reflexivity).
  discriminate.
Defined.

Lemma C7_witness :
  ∃ c2 c4,
    run_lines (env [] [] []) no_include ["label A"; "kernel K1"] one_label
    = Ok c2
    ∧ run_lines (env [] [] []) no_include
                ["label A"; "kernel K1"; "label A"; "kernel K2"] one_label
      = Ok c4
    ∧ linuxEntries c4 !! "A" = Some (image "A" "" (Some "/mnt/K2") None)
    ∧ labelOrder c4 = ["A"; "A"; "A"]
    ∧ output_labels c4 = output_labels c2
    ∧ "A" ∈ output_labels c4
    ∧ NoDup (output_labels c4)
    ∧ images_of c4 = spec_output c4.
Proof.
  apply (C7_redeclare (env [] [] []) no_include one_label
           "label A" "kernel K1" "label A" "kernel K2" "A" "K1" "K2"
           (mkURL "file" "" "/mnt/K1") (mkURL "file" "" "/mnt/K2"));
    vm_compute; reflexivity.
Defined.

(** The include in the third line runs the initrd loop: the entry takes
    its initrd from the command line it has then, and the command line the
    fourth line gives it is never scanned. *)
Lemma C8_counterexample :
  (∃ c, run_lines early_fill_world (appendFile early_fill_world 1)
                  ["label A"; "append initrd=foo"; "include inc.cfg"]
                  (newParser mnt) = Ok c
        ∧ linuxEntries c !! "A"
          = Some (image "A" "initrd=foo" None (Some "/mnt/foo")))
  ∧ ParseConfigFile early_fill_world 2 "main.cfg" mnt
    = Ok [image "A" "initrd=bar" None (Some "/mnt/foo")]
  ∧ ParseConfigFile_backfill_once early_fill_world 2 "main.cfg" mnt
    = Ok [image "A" "initrd=bar" None (Some "/mnt/bar")]
  ∧ ParseConfigFile early_fill_world 2 "main.cfg" mnt
    ≠ ParseConfigFile_backfill_once early_fill_world 2 "main.cfg" mnt.
Proof.
  split; [|split; [|split]]; try (vm_compute; reflexivity).
  - eexists. split; vm_compute; reflexivity.
  - vm_compute. discriminate.
Defined.

Lemma C8_witness : filled two_initrd_after.
Proof.
  apply (proj2 (C8_backfill_ends_every_append two_initrd_world 0
                  (newParser mnt) two_initrd_after)
           (unlines ["label A"; "append initrd=a initrd=b"])).
  vm_compute. reflexivity.
Defined.

Lemma C9_witness :
  ParseLocalConfig broken_probe_world 1 "/mnt"
  = try_candidate broken_probe_world 1 "/mnt" "isolinux/isolinux.cfg".
Proof.
  apply (proj1 (C9_local_probe broken_probe_world 1 "/mnt")
           ["boot/isolinux/isolinux.cfg"; "boot/isolinux/syslinux.cfg"]
           "isolinux/isolinux.cfg"
           ["isolinux/syslinux.cfg"; "boot/syslinux/isolinux.cfg";
            "boot/syslinux/syslinux.cfg"; "syslinux/isolinux.cfg";
            "syslinux/syslinux.cfg"; "isolinux.cfg"; "syslinux.cfg"]).
  - vm_compute. reflexivity.
  - repeat constructor.
  - vm_compute. reflexivity.
Defined.

Lemma C10_witness :
  entry_scope_has_entry one_label
  ∧ (∀ inc arg,
       exec_directive (env [] [] []) inc "append" arg one_label ≠ Panic)
  ∧ (∀ fuel line c' l,
       leaves (exec_line (env [] [] []) (appendFile (env [] [] []) fuel)
                         line one_label) c' →
       is_Some (linuxEntries one_label !! l) →
       is_Some (linuxEntries c' !! l))
  ∧ (∀ inc d arg c',
       d ≠ "label" → d ≠ "include" →
       leaves (exec_directive (env [] [] []) inc d arg one_label) c' →
       scope c' = scope one_label ∧ curEntry c' = curEntry one_label).
Proof.
  apply (C10_entry_scope_has_entry (env [] [] []) one_label).
  apply (reach_line _ 0 "label A" (newParser mnt)).
  - apply reach_new.
  - left. vm_compute. reflexivity.
Defined.

(** ** The runs, end to end *)

Example default_world_output :
  ParseConfigFile default_world 1 "main.cfg" mnt
  = Ok [image "B" "" None None; image "A" "" None None].
Proof. vm_compute. reflexivity. Qed.

Example missing_include_output :
  ParseConfigFile missing_include_world 2 "main.cfg" mnt
  = Ok [image "A" "" None None; image "C" "" None None].
Proof. vm_compute. reflexivity. Qed.

Example probe_world_output :
  ParseLocalConfig probe_world 1 "/mnt"
  = Ok [image "A" "" (Some "/mnt/syslinux/k") None]
  ∧ ParseLocalConfig broken_probe_world 1 "/mnt"
    = Err (TransportError (mkURL "file" "" "/mnt/isolinux/isolinux.cfg")) []
  ∧ ParseLocalConfig (env [] [] []) 1 "/mnt" = Err (NoValidConfig "/mnt") [].
Proof. repeat split; vm_compute; reflexivity. Qed.

Example append_override_output :
  ParseConfigFile
    (env [("/mnt/main.cfg", unlines ["append X"; "label A"; "append Y"])]
         [] [])
    1 "main.cfg" mnt
  = Ok [image "A" "Y" None None]
  ∧ ParseConfigFile
      (env [("/mnt/main.cfg", unlines ["append X"; "label A"; "append -"])]
           [] [])
      1 "main.cfg" mnt
    = Ok [image "A" "" None None].
Proof. split; vm_compute; reflexivity. Qed.

Example redeclare_output :
  ParseConfigFile
    (env [("/mnt/main.cfg",
           unlines ["label A"; "kernel K1"; "label B"; "kernel k0";
                    "label A"; "kernel K2"])] [] [])
    1 "main.cfg" mnt
  = Ok [image "A" "" (Some "/mnt/K2") None;
        image "B" "" (Some "/mnt/k0") None].
Proof. vm_compute. reflexivity. Qed.

(** ** Further properties: deduplication and the order of the output *)
Section MoreOrder.

Context {handle : Type}.
Implicit Types (c : parser handle) (e : LinuxImage handle).
Variable E : Env handle.

Lemma keep_first_sublist (l : list string) : keep_first l `sublist_of` l.
Proof.
  induction l as [|x r IH]; simpl; [constructor|].
  apply sublist_skip. etrans; [apply sublist_filter|exact IH].
Qed.

Lemma filter_ne_id (x : string) (r : list string) :
  x ∉ r → filter (λ y, y ≠ x) r = r.
Proof.
  induction r as [|y r IHr]; [done|]. intros Hx.
  apply not_elem_of_cons in Hx as [Hne Hx].
  rewrite filter_cons, decide_True by congruence. f_equal. by apply IHr.
Qed.

Lemma keep_first_NoDup_id (l : list string) : NoDup l → keep_first l = l.
Proof.
  induction 1 as [|x r Hx _ IH]; [done|]. simpl. rewrite IH. f_equal.
  by apply filter_ne_id.
Qed.

(** X1: [dedupStrings] returns a list without repetition that has exactly
    the elements of its argument and is a sublist of it (the order of the
    argument is kept, and nothing is added). *)
Theorem X1_dedupStrings_sound (l : list string) :
  NoDup (dedupStrings l)
  ∧ (∀ x, x ∈ dedupStrings l ↔ x ∈ l)
  ∧ dedupStrings l `sublist_of` l.
Proof.
  rewrite dedupStrings_keep_first. split; [apply NoDup_keep_first|].
  split; [apply elem_of_keep_first|apply keep_first_sublist].
Qed.

(** X2: [dedupStrings] leaves a list unchanged exactly when the list has
    no repetition; hence applying it twice is the same as applying it
    once. *)
Theorem X2_dedupStrings_fixpoint (l : list string) :
  (dedupStrings l = l ↔ NoDup l)
  ∧ dedupStrings (dedupStrings l) = dedupStrings l.
Proof.
  rewrite !dedupStrings_keep_first. split.
  - split.
    + intros <-. apply NoDup_keep_first.
    + apply keep_first_NoDup_id.
  - apply keep_first_NoDup_id, NoDup_keep_first.
Qed.

(** *** Two more invariants *)

Lemma nothing_global_directive d arg :
  preserves nothing_in_global_scope (exec_directive E no_include d arg).
Proof.
  intros c Hc. unfold nothing_in_global_scope in *.
  directive_cases; try done; intros Hs; try (by apply Hc);
    try congruence;
    destruct (Hc Hs) as (Hm & _ & _);
    match goal with
    | H : linuxEntries c !! _ = Some _ |- _ =>
        rewrite Hm, lookup_empty in H; discriminate H
    end.
Qed.

Lemma nothing_global_backfill :
  preserves nothing_in_global_scope (backfill E).
Proof.
  apply backfill_preserves. intros c c' Hf Hc Hs.
  pose proof (fill_rel_lookup c c') as Hl.
  destruct Hf as [Heq Hrel]. rewrite Heq in Hs |- *. simpl in *.
  destruct (Hc Hs) as (Hm & Ho & Hcur). repeat split; try done.
  apply map_empty. intros l. specialize (Hrel l).
  rewrite Hm, lookup_empty in Hrel. by inversion Hrel.
Qed.

Lemma reachable_nothing_global c :
  reachable E c → nothing_in_global_scope c.
Proof.
  apply (reachable_holds E nothing_in_global_scope).
  - apply nothing_global_directive.
  - apply nothing_global_backfill.
  - by intros w _.
Qed.

Lemma labels_entries_directive d arg :
  preserves labels_have_entries (exec_directive E no_include d arg).
Proof.
  intros c Hc. unfold labels_have_entries in *.
  directive_cases; try done; try (by apply Hc); intros lbl Hlbl.
  all: try (apply lookup_insert_is_Some'; right; by apply Hc).
  apply lookup_insert_is_Some'. apply elem_of_app in Hlbl as [Hl|Hl].
  - right. by apply Hc.
  - left. apply list_elem_of_singleton in Hl. done.
Qed.

Lemma labels_entries_backfill : preserves labels_have_entries (backfill E).
Proof.
  apply backfill_preserves. intros c c' Hf Hc l Hl.
  apply (fill_rel_lookup c c' l Hf). apply Hc.
  destruct Hf as [Heq _]. rewrite Heq in Hl. exact Hl.
Qed.

Lemma reachable_labels_entries c : reachable E c → labels_have_entries c.
Proof.
  apply (reachable_holds E labels_have_entries).
  - apply labels_entries_directive.
  - apply labels_entries_backfill.
  - intros w l Hl. by inversion Hl.
Qed.

(** *** Which entries are output, and which comes first *)

Lemma elem_of_output_labels c l :
  entries_are_ordered c →
  l ∈ output_labels c ↔ is_Some (linuxEntries c !! l).
Proof.
  intros Hord. unfold output_labels.
  rewrite list_elem_of_filter, elem_of_keep_first. split; [tauto|].
  intros Hl. split; [done|]. unfold candidate_order.
  do 2 (apply elem_of_app; right). by apply Hord.
Qed.

Lemma length_spec_output c :
  Datatypes.length (spec_output c) = Datatypes.length (output_labels c).
Proof.
  unfold spec_output, output_labels.
  induction (keep_first (candidate_order c)) as [|x r IH]; [done|].
  rewrite filter_cons. case_decide as Hx; [|exact IH].
  destruct Hx as [e He]. simpl. rewrite He. simpl. f_equal. exact IH.
Qed.

Lemma length_images_of c :
  entries_are_ordered c →
  Datatypes.length (images_of c) = size (linuxEntries c).
Proof.
  intros Hord. rewrite (images_of_spec c Hord), length_spec_output.
  rewrite <- length_map_to_list, <- (length_fmap fst).
  apply Permutation_length, NoDup_Permutation.
  - apply NoDup_output_labels.
  - apply NoDup_fst_map_to_list.
  - intros l. rewrite (elem_of_output_labels c l Hord).
    rewrite list_elem_of_fmap. split.
    + intros [e He]. exists (l, e). split; [done|].
      by apply elem_of_map_to_list.
    + intros [[k v] [-> Hkv]]. apply elem_of_map_to_list in Hkv. eauto.
Qed.

(** X3: the output of a parse holds every declared entry and each only
    once: an identifier is among the output labels exactly when it has an
    entry, and [ParseConfigFile] returns as many images as there are
    entries. *)
Theorem X3_output_complete fuel url w c :
  appendFile E fuel url (newParser w) = Ok c →
  (∀ l, l ∈ output_labels c ↔ is_Some (linuxEntries c !! l))
  ∧ ∃ imgs, ParseConfigFile E fuel url w = Ok imgs
            ∧ Datatypes.length imgs = size (linuxEntries c).
Proof.
  intros Hc.
  assert (reachable E c) as Hr.
  { eapply appendFile_reachable; [apply reach_new|]. left. exact Hc. }
  pose proof (reachable_ordered E c Hr) as Hord. split.
  - intros l. by apply elem_of_output_labels.
  - unfold ParseConfigFile. rewrite Hc. eexists. split; [reflexivity|].
    by apply length_images_of.
Qed.

(** X4: a parse that succeeds returns no image exactly when the
    configuration, its includes included, declared no label (the parser is
    still in global scope at the end). *)
Theorem X4_empty_output_iff_no_label fuel url w c :
  appendFile E fuel url (newParser w) = Ok c →
  (ParseConfigFile E fuel url w = Ok [] ↔ scope c = scopeGlobal)
  ∧ (scope c = scopeGlobal ↔ labelOrder c = []).
Proof.
  intros Hc.
  assert (reachable E c) as Hr.
  { eapply appendFile_reachable; [apply reach_new|]. left. exact Hc. }
  pose proof (reachable_ordered E c Hr) as Hord.
  pose proof (reachable_nothing_global c Hr) as Hglob.
  pose proof (reachable_entry_scope E c Hr) as Hent.
  assert (scope c = scopeGlobal ↔ labelOrder c = []) as Hiff.
  { split; [intros Hs; by destruct (Hglob Hs) as (_ & ? & _)|].
    intros Hnil. destruct (scope c) eqn:Hs; [done|].
    destruct (Hent Hs) as [e He].
    assert (curEntry c ∈ labelOrder c) as Hin by (apply Hord; eauto).
    rewrite Hnil in Hin. by inversion Hin. }
  split; [|exact Hiff].
  unfold ParseConfigFile. rewrite Hc. split.
  - intros [= Himgs]. destruct (scope c) eqn:Hs; [done|]. exfalso.
    destruct (Hent Hs) as [e He].
    pose proof (length_images_of c Hord) as Hlen. rewrite Himgs in Hlen.
    simpl in Hlen. symmetry in Hlen. apply map_size_empty_inv in Hlen.
    by rewrite Hlen, lookup_empty in He.
  - intros Hs. apply Hiff in Hs. unfold images_of. by rewrite Hs.
Qed.

Lemma head_spec_output c :
  head (spec_output c) = first_entry c (candidate_order c).
Proof.
  unfold spec_output, output_labels.
  induction (candidate_order c) as [|x r IH]; [done|]. simpl.
  rewrite filter_cons. destruct (linuxEntries c !! x) as [e|] eqn:Hx.
  - rewrite decide_True by eauto. simpl. by rewrite Hx.
  - rewrite decide_False by (by intros [? ?]). rewrite <- IH.
    rewrite list_filter_filter. f_equal. f_equal.
    apply list_filter_iff. intros y. split; [tauto|].
    intros Hy. split; [done|]. intros ->. rewrite Hx in Hy. by destruct Hy.
Qed.

(** X5: which image comes first.  The entry the nerf default names, when
    it exists; else the entry the default names, when it exists; else the
    entry of the first label declared. *)
Theorem X5_first_image c :
  reachable E c →
  head (images_of c)
  = match (if decide (nerfDefaultEntry c = "") then None
           else linuxEntries c !! nerfDefaultEntry c) with
    | Some e => Some e
    | None =>
        match (if decide (defaultEntry c = "") then None
               else linuxEntries c !! defaultEntry c) with
        | Some e => Some e
        | None => head (labelOrder c) ≫= λ l, linuxEntries c !! l
        end
    end.
Proof.
  intros Hr. rewrite (images_of_spec c (reachable_ordered E c Hr)).
  rewrite head_spec_output. unfold candidate_order.
  pose proof (reachable_labels_entries c Hr) as Hlab.
  assert (first_entry c (labelOrder c)
          = head (labelOrder c) ≫= λ l, linuxEntries c !! l) as Hfirst.
  { destruct (labelOrder c) as [|l0 r] eqn:Hlo; [done|]. simpl.
    destruct (Hlab l0) as [e ->]; [rewrite Hlo; by left|done]. }
  destruct (decide (nerfDefaultEntry c = "")) as [Hn|Hn];
    destruct (decide (defaultEntry c = "")) as [Hd|Hd]; simpl;
    repeat match goal with
           | |- context [linuxEntries c !! ?k] =>
               lazymatch k with
               | nerfDefaultEntry c => idtac
               | defaultEntry c => idtac
               end;
               destruct (linuxEntries c !! k) eqn:?
           end; try done.
Qed.

End MoreOrder.

(** ** Further properties: the initrd loop *)
Section MoreBackfill.

Context {handle : Type}.
Implicit Types (c : parser handle) (e : LinuxImage handle).
Variable E : Env handle.

Lemma kept_refl e : kept e e.
Proof. split; [apply same_but_initrd_refl|done]. Qed.

Lemma kept_trans e1 e2 e3 : kept e1 e2 → kept e2 e3 → kept e1 e3.
Proof.
  intros [S1 K1] [S2 K2]. split; [by eapply same_but_initrd_trans|].
  intros H1. specialize (K1 H1). subst e2. by apply K2.
Qed.

Lemma store_same c l e : linuxEntries c !! l = Some e → store l e c = c.
Proof.
  intros Hl. unfold store, set_linuxEntries. rewrite (insert_id _ _ _ Hl).
  by destruct c.
Qed.

Lemma backfill_keys_kept keys c :
  res_holds (λ c', ∀ l, option_Forall2 kept (linuxEntries c !! l)
                                       (linuxEntries c' !! l))
            (backfill_keys E keys c).
Proof.
  assert (∀ c0 : parser handle, ∀ l,
            option_Forall2 kept (linuxEntries c0 !! l) (linuxEntries c0 !! l))
    as Hrefl.
  { intros c0 l. destruct (linuxEntries c0 !! l); constructor.
    apply kept_refl. }
  assert (∀ c0 k ek ek' l,
            linuxEntries c0 !! k = Some ek → Initrd ek = None →
            same_but_initrd ek ek' →
            option_Forall2 kept (linuxEntries c0 !! l)
                           (linuxEntries (store k ek' c0) !! l)) as Hstore.
  { intros c0 k ek ek' l Hk Hi Hs. simpl.
    destruct (decide (k = l)) as [->|Hne].
    - rewrite lookup_insert_eq, Hk. constructor. split; [done|].
      rewrite Hi. by intros [? ?].
    - rewrite lookup_insert_ne by done. apply Hrefl. }
  revert c. induction keys as [|k keys IH]; intros c; simpl; [apply Hrefl|].
  destruct (linuxEntries c !! k) as [ek|] eqn:Hk; [|apply IH].
  destruct (Initrd ek) eqn:Hi; [apply IH|].
  pose proof (scan_cmdline_frame E c (strings.Fields (Cmdline ek)) ek) as Hs.
  destruct (scan_cmdline E c _ ek) as [ek'|err ek'| |]; simpl in *; auto.
  - specialize (IH (store k ek' c)).
    destruct (backfill_keys E keys (store k ek' c)); simpl in *; auto;
      intros l; specialize (IH l);
      pose proof (Hstore c k ek ek' l Hk Hi Hs) as Hst;
      destruct Hst as [a b Hab|]; inversion IH; subst; constructor;
      eapply kept_trans; eauto.
  - intros l. by apply (Hstore c k ek ek' l).
Qed.

(** X6: the initrd loop, whether it completes or stops at an error,
    changes nothing but initrd handles: label order, defaults, global
    append, scope, current label and working directory stay, no label is
    added or removed, every entry keeps its name, command line and kernel,
    and an entry whose initrd was already set (by the INITRD directive) is
    left exactly as it was. *)
Theorem X6_backfill_frame c c' :
  leaves (backfill E c) c' →
  labelOrder c' = labelOrder c
  ∧ defaultEntry c' = defaultEntry c
  ∧ nerfDefaultEntry c' = nerfDefaultEntry c
  ∧ globalAppend c' = globalAppend c
  ∧ scope c' = scope c
  ∧ curEntry c' = curEntry c
  ∧ wd c' = wd c
  ∧ ∀ l, match linuxEntries c !! l, linuxEntries c' !! l with
         | Some e, Some e' =>
             Name e' = Name e ∧ Cmdline e' = Cmdline e
             ∧ Kernel e' = Kernel e
             ∧ (is_Some (Initrd e) → e' = e)
         | None, None => True
         | _, _ => False
         end.
Proof.
  intros Hl.
  pose proof (leaves_res_holds _ _ _ (backfill_frame E c) Hl) as [Heq _].
  pose proof (leaves_res_holds _ _ _
                (backfill_keys_kept (range_keys E (linuxEntries c)) c) Hl)
    as Hk.
  rewrite Heq. simpl. repeat split; try done.
  intros l. specialize (Hk l).
  destruct Hk as [e e' [(Hn & Hc & Hke) Hi]|]; [|done].
  repeat split; try done; congruence.
Qed.

Lemma Split_nonempty (s : string) (sep : ascii) : strings.Split s sep ≠ [].
Proof.
  destruct s as [|ch s]; simpl; [done|].
  case_decide; [done|]. by destruct (strings.Split s sep).
Qed.

Lemma scan_cmdline_no_tokens c opts e :
  Forall (λ opt, is_initrd_token opt = false) opts →
  scan_cmdline E c opts e = Ok e.
Proof.
  induction 1 as [|opt opts Hopt _ IH]; [done|]. simpl.
  unfold is_initrd_token in Hopt.
  pose proof (Split_nonempty opt "=") as Hne.
  destruct (strings.Split opt "=") as [|k vs]; [done|].
  apply bool_decide_eq_false in Hopt. by rewrite decide_False.
Qed.

Lemma backfill_keys_filled keys c :
  filled c → backfill_keys E keys c = Ok c.
Proof.
  intros Hf. induction keys as [|k keys IH]; simpl; [done|].
  destruct (linuxEntries c !! k) as [ek|] eqn:Hk; [|exact IH].
  destruct (Initrd ek) eqn:Hi; [exact IH|].
  rewrite (scan_cmdline_no_tokens c _ ek (Hf k ek Hk Hi)).
  by rewrite (store_same c k ek Hk).
Qed.

(** X7: a second pass of the initrd loop changes nothing: when a pass
    completes, a pass on the state it left completes and leaves that same
    state. *)
Theorem X7_backfill_idempotent c c' :
  backfill E c = Ok c' → backfill E c' = Ok c'.
Proof.
  intros Hb. apply backfill_keys_filled. by eapply backfill_filled.
Qed.

(** *** When the loop fails, and when it completes *)

Lemma Split_single (s x : string) (sep : ascii) :
  strings.Split s sep = [x] → s = x.
Proof.
  revert x. induction s as [|ch s IH]; intros x; simpl.
  { by intros [= <-]. }
  case_decide.
  { intros [= _ Hn]. by apply Split_nonempty in Hn. }
  destruct (strings.Split s sep) as [|y r] eqn:Hs.
  { by apply Split_nonempty in Hs. }
  intros [= <- ->]. by rewrite (IH y).
Qed.

Lemma scan_cmdline_err c opts e err e' :
  scan_cmdline E c opts e = Err err e' →
  ∃ v, v ∈ initrd_values opts ∧ getFile E c v = Failed err.
Proof.
  revert e. induction opts as [|opt opts IH]; intros e; simpl; [done|].
  unfold initrd_values. simpl. unfold initrd_value at 1.
  destruct (strings.Split opt "=") as [|k vs]; [done|].
  case_decide as Hk.
  - destruct vs as [|v vs]; [done|].
    destruct (getFile E c v) as [i|err0] eqn:Hv.
    + intros Hs. destruct (IH _ Hs) as (v' & Hin & Hf).
      exists v'. split; [by right|done].
    + intros [= <- <-]. exists v. split; [by left|done].
  - intros Hs. destruct (IH _ Hs) as (v' & Hin & Hf).
    exists v'. split; [|done]. by destruct vs.
Qed.

Lemma scan_cmdline_panic c opts e :
  scan_cmdline E c opts e = Panic → "initrd" ∈ opts.
Proof.
  revert e. induction opts as [|opt opts IH]; intros e; simpl; [done|].
  destruct (strings.Split opt "=") as [|k vs] eqn:Hsp.
  { by apply Split_nonempty in Hsp. }
  case_decide as Hk.
  - destruct vs as [|v vs].
    + intros _. subst k. apply Split_single in Hsp. subst opt. by left.
    + destruct (getFile E c v); [|done]. intros Hs. right. by eapply IH.
  - intros Hs. right. by eapply IH.
Qed.

Lemma scan_cmdline_fuel c opts e : scan_cmdline E c opts e ≠ OutOfFuel.
Proof.
  revert e. induction opts as [|opt opts IH]; intros e; simpl; [done|].
  destruct (strings.Split opt "=") as [|k vs]; [done|].
  case_decide; [|apply IH].
  destruct vs as [|v vs]; [done|]. destruct (getFile E c v); [apply IH|done].
Qed.

Lemma backfill_keys_failure keys c :
  match backfill_keys E keys c with
  | Ok _ => True
  | Err err _ =>
      ∃ l e v, linuxEntries c !! l = Some e ∧ Initrd e = None
               ∧ v ∈ initrd_values (strings.Fields (Cmdline e))
               ∧ getFile E c v = Failed err
  | Panic =>
      ∃ l e, linuxEntries c !! l = Some e ∧ Initrd e = None
             ∧ "initrd" ∈ strings.Fields (Cmdline e)
  | OutOfFuel => False
  end.
Proof.
  revert c. induction keys as [|k keys IH]; intros c; simpl; [done|].
  destruct (linuxEntries c !! k) as [ek|] eqn:Hk; [|by apply IH].
  destruct (Initrd ek) eqn:Hi; [by apply IH|].
  pose proof (scan_cmdline_frame E c (strings.Fields (Cmdline ek)) ek) as Hfr.
  destruct (scan_cmdline E c (strings.Fields (Cmdline ek)) ek)
    as [ek'|err ek'| |] eqn:Hs.
  - simpl in Hfr. destruct Hfr as (_ & Hcmd & _).
    specialize (IH (store k ek' c)).
    destruct (backfill_keys E keys (store k ek' c)) as [c2|err c2| |];
      try done.
    + destruct IH as (l & e & v & Hl & Hnone & Hin & Hg).
      rewrite (getFile_wd E _ c v) in Hg by done.
      simpl in Hl. destruct (decide (k = l)) as [<-|Hne].
      * rewrite lookup_insert_eq in Hl. injection Hl as <-.
        exists k, ek, v. by rewrite Hcmd.
      * rewrite lookup_insert_ne in Hl by done. by exists l, e, v.
    + destruct IH as (l & e & Hl & Hnone & Hin).
      simpl in Hl. destruct (decide (k = l)) as [<-|Hne].
      * rewrite lookup_insert_eq in Hl. injection Hl as <-.
        exists k, ek. by rewrite Hcmd.
      * rewrite lookup_insert_ne in Hl by done. by exists l, e.
  - destruct (scan_cmdline_err _ _ _ _ _ Hs) as (v & Hin & Hf).
    by exists k, ek, v.
  - exists k, ek. repeat split; try done. by eapply scan_cmdline_panic.
  - by apply scan_cmdline_fuel in Hs.
Qed.

(** X8: the initrd loop fails only for a reason found in the entries: an
    error it returns is the failure to fetch the value of an [initrd=]
    field of an entry without initrd; a panic comes from the bare field
    [initrd] in the command line of such an entry. *)
Theorem X8_backfill_failure c :
  (∀ err c', backfill E c = Err err c' →
     ∃ l e v, linuxEntries c !! l = Some e ∧ Initrd e = None
              ∧ v ∈ initrd_values (strings.Fields (Cmdline e))
              ∧ getFile E c v = Failed err)
  ∧ (backfill E c = Panic →
     ∃ l e, linuxEntries c !! l = Some e ∧ Initrd e = None
            ∧ "initrd" ∈ strings.Fields (Cmdline e)).
Proof.
  pose proof (backfill_keys_failure (range_keys E (linuxEntries c)) c) as H.
  unfold backfill. split.
  - intros err c' Hb. by rewrite Hb in H.
  - intros Hb. by rewrite Hb in H.
Qed.

(** A scan completes exactly when it can deal with every field. *)
Lemma scan_cmdline_ok_iff c opts e :
  (∃ e', scan_cmdline E c opts e = Ok e') ↔ Forall (fetchable E c) opts.
Proof.
  revert e. induction opts as [|opt opts IH]; intros e; simpl.
  { split; [constructor|eauto]. }
  rewrite Forall_cons. unfold fetchable at 1.
  unfold is_initrd_token, initrd_value.
  pose proof (Split_nonempty opt "=") as Hne.
  destruct (strings.Split opt "=") as [|k vs]; [done|].
  case_decide as Hk.
  - rewrite bool_decide_eq_true_2 by done.
    destruct vs as [|v vs].
    { split; [by intros [? ?]|]. intros [H _].
      by destruct (H eq_refl) as (? & ? & ? & ?). }
    destruct (getFile E c v) as [i|err] eqn:Hv.
    + rewrite IH. split; [|tauto]. intros H. split; [|done]. eauto.
    + split; [by intros [? ?]|]. intros [H _].
      destruct (H eq_refl) as (v' & h & [= <-] & Hg). congruence.
  - rewrite bool_decide_eq_false_2 by done. rewrite IH.
    split; [|tauto]. intros H. split; [done|exact H].
Qed.

Lemma backfill_keys_ok_iff keys c :
  NoDup keys →
  (∃ c', backfill_keys E keys c = Ok c')
  ↔ ∀ l e, l ∈ keys → linuxEntries c !! l = Some e → Initrd e = None →
           Forall (fetchable E c) (strings.Fields (Cmdline e)).
Proof.
  assert (∀ c1 c2 : parser handle, wd c1 = wd c2 →
            ∀ opt, fetchable E c1 opt ↔ fetchable E c2 opt) as Hwd.
  { intros c1 c2 H opt. unfold fetchable.
    split; intros Hf Ht; destruct (Hf Ht) as (v & h & ? & Hg);
      exists v, h; split; try done;
      [rewrite <- (getFile_wd E c1 c2 v H)|rewrite (getFile_wd E c1 c2 v H)];
      done. }
  intros Hnd. revert c. induction Hnd as [|k keys Hk Hnd IH]; intros c.
  { simpl. split; [|eauto]. intros _ l e Hl. by inversion Hl. }
  simpl. destruct (linuxEntries c !! k) as [ek|] eqn:Hek.
  2:{ rewrite IH. split; intros H l e Hl He Hi.
      - apply elem_of_cons in Hl as [->|Hl]; [congruence|by eapply H].
      - eapply H; [by right|done..]. }
  destruct (Initrd ek) as [i|] eqn:Hi.
  { rewrite IH. split; intros H l e Hl He Hi'.
    - apply elem_of_cons in Hl as [->|Hl]; [congruence|by eapply H].
    - eapply H; [by right|done..]. }
  pose proof (scan_cmdline_ok_iff c (strings.Fields (Cmdline ek)) ek) as Hsc.
  destruct (scan_cmdline E c (strings.Fields (Cmdline ek)) ek)
    as [ek'|err ek'| |] eqn:Hs.
  - rewrite IH. split; intros H l e Hl He Hi'.
    + apply elem_of_cons in Hl as [->|Hl].
      * assert (e = ek) as -> by congruence. apply Hsc. eauto.
      * assert (k ≠ l) by (by intros ->).
        eapply Forall_impl.
        { apply (H l e Hl); [simpl; by rewrite lookup_insert_ne|done]. }
        intros opt. by apply Hwd.
    + simpl in He. assert (k ≠ l) by (by intros ->).
      rewrite lookup_insert_ne in He by done.
      eapply Forall_impl.
      { apply (H l e); [by right|done|done]. }
      intros opt. by apply Hwd.
  - split; [by intros [? ?]|]. intros H. exfalso.
    assert (∃ e', Err err ek' = Ok e') as [? ?]; [|done].
    apply Hsc. eapply H; [by left|done..].
  - split; [by intros [? ?]|]. intros H. exfalso.
    assert (∃ e', @Panic (LinuxImage handle) = Ok e') as [? ?]; [|done].
    apply Hsc. eapply H; [by left|done..].
  - by apply scan_cmdline_fuel in Hs.
Qed.

(** X9: the initrd loop completes exactly when, in every entry without
    initrd, every field of the command line whose text before the first
    [=] is [initrd] has a value and that value can be fetched. *)
Theorem X9_backfill_completes_iff c :
  (∃ c', backfill E c = Ok c')
  ↔ ∀ l e, linuxEntries c !! l = Some e → Initrd e = None →
           Forall (fetchable E c) (strings.Fields (Cmdline e)).
Proof.
  unfold backfill.
  rewrite (backfill_keys_ok_iff _ c (range_keys_NoDup E _)).
  split; intros H l e.
  - intros He Hi. apply (H l e); [|done|done].
    apply range_keys_elem. eauto.
  - intros _. apply H.
Qed.

End MoreBackfill.

(** ** Further properties: lines and directives *)
Section MoreLines.

Context {handle : Type}.
Implicit Types (c : parser handle) (e : LinuxImage handle).
Implicit Types (inc : string → parser handle → result (parser handle)).
Variable E : Env handle.

Local Arguments getFile : simpl never.

(** *** [strings.Fields] and [strings.Join] *)

Lemma append_cons (a : ascii) (s t : string) :
  String a s +:+ t = String a (s +:+ t).
Proof. reflexivity. Qed.

Lemma append_nil_r (s : string) : s +:+ "" = s.
Proof.
  induction s as [|a s IH]; [done|]. by rewrite append_cons, IH.
Qed.

Lemma append_assoc (s t u : string) : (s +:+ t) +:+ u = s +:+ (t +:+ u).
Proof.
  induction s as [|a s IH]; [done|]. by rewrite !append_cons, IH.
Qed.

Lemma no_space_app (s t : string) :
  no_space (s +:+ t) = no_space s && no_space t.
Proof.
  induction s as [|a s IH]; [done|].
  rewrite append_cons. simpl. rewrite IH. by rewrite andb_assoc.
Qed.

Lemma Fields_from_app (cur s t : string) :
  no_space s = true →
  strings.Fields_from cur (s +:+ t) = strings.Fields_from (cur +:+ s) t.
Proof.
  revert cur. induction s as [|a s IH]; intros cur Hs.
  { by rewrite append_nil_r. }
  simpl in Hs. apply andb_true_iff in Hs as [Ha Hs].
  apply negb_true_iff in Ha.
  rewrite append_cons. simpl. rewrite Ha. rewrite (IH _ Hs).
  by rewrite append_assoc.
Qed.

Lemma Fields_from_ok (cur s : string) :
  no_space cur = true → Forall field_ok (strings.Fields_from cur s).
Proof.
  revert cur. induction s as [|a s IH]; intros cur Hcur; simpl.
  { case_decide; constructor; [done|constructor]. }
  destruct (strings.isSpace a) eqn:Ha.
  - case_decide; [by apply IH|]. constructor; [done|by apply IH].
  - apply IH. rewrite no_space_app, Hcur. simpl. by rewrite Ha.
Qed.

Lemma Fields_ok (s : string) : Forall field_ok (strings.Fields s).
Proof. by apply Fields_from_ok. Qed.

Lemma Fields_Join (fs : list string) :
  Forall field_ok fs → strings.Fields (strings.Join fs " ") = fs.
Proof.
  unfold strings.Fields. induction 1 as [|f r [Hne Hf] Hr IH]; [done|].
  destruct r as [|g r].
  - change (strings.Join [f] " ") with f.
    rewrite <- (append_nil_r f) at 1. rewrite (Fields_from_app "" f "" Hf).
    change ("" +:+ f) with f. simpl. by rewrite decide_False.
  - change (strings.Join (f :: g :: r) " ")
      with (f +:+ " " +:+ strings.Join (g :: r) " ").
    rewrite (Fields_from_app "" f _ Hf).
    change ("" +:+ f) with f.
    change (" " +:+ strings.Join (g :: r) " ")
      with (String " " (strings.Join (g :: r) " ")).
    cbn [strings.Fields_from]. change (strings.isSpace " ") with true.
    cbv iota. rewrite decide_False by done. by rewrite IH.
Qed.

(** X10: the argument of a directive is the rest of the line with every
    run of white space collapsed to one space: it is never empty, splitting
    it again gives back the fields of the line after the keyword, and the
    keyword is the first field in lower case. *)
Theorem X10_directive_argument line d arg :
  directive_of line = Some (d, arg) →
  arg ≠ ""
  ∧ strings.Join (strings.Fields arg) " " = arg
  ∧ ∃ kv0 rest,
      strings.Fields line = kv0 :: rest ∧ rest ≠ []
      ∧ d = strings.ToLower kv0
      ∧ strings.Fields arg = rest
      ∧ Forall field_ok rest.
Proof.
  unfold directive_of. pose proof (Fields_ok line) as Hok.
  destruct (strings.Fields line) as [|kv0 [|kv1 rest]]; try done.
  apply Forall_cons in Hok as [_ Hok].
  pose proof (Fields_Join _ Hok) as HJ.
  remember (strings.Join (kv1 :: rest) " ") as a eqn:Ha.
  intros [= <- <-]. split; [|split].
  - intros ->. done.
  - by rewrite HJ.
  - by exists kv0, (kv1 :: rest).
Qed.

(** *** Lines that do nothing *)

Lemma exec_directive_unknown inc d arg c :
  d ∉ keywords → exec_directive E inc d arg c = Ok c.
Proof.
  intros Hd. unfold exec_directive.
  assert (∀ k, k ∈ keywords → d ≠ k) as Hne by (by intros k Hk ->).
  rewrite (decide_False (P := d = "default"))
    by (apply Hne; unfold keywords; repeat first [by left | right]).
  rewrite (decide_False (P := d = "nerfdefault"))
    by (apply Hne; unfold keywords; repeat first [by left | right]).
  rewrite (decide_False (P := d = "include"))
    by (apply Hne; unfold keywords; repeat first [by left | right]).
  rewrite (decide_False (P := d = "menu"))
    by (apply Hne; unfold keywords; repeat first [by left | right]).
  rewrite (decide_False (P := d = "label"))
    by (apply Hne; unfold keywords; repeat first [by left | right]).
  rewrite (decide_False (P := d = "kernel" ∨ d = "linux"))
    by (intros [H|H]; revert H; apply Hne; unfold keywords;
        repeat first [by left | right]).
  rewrite (decide_False (P := d = "initrd"))
    by (apply Hne; unfold keywords; repeat first [by left | right]).
  rewrite (decide_False (P := d = "append"))
    by (apply Hne; unfold keywords; repeat first [by left | right]).
  done.
Qed.

(** X11: a line of fewer than two fields (blank, or a lone word) and a
    line whose first field is, in lower case, none of the nine keywords
    leave the parser as it is and never fail. *)
Theorem X11_inert_lines inc line c :
  match directive_of line with
  | None => True
  | Some (d, _) => d ∉ keywords
  end →
  exec_line E inc line c = Ok c.
Proof.
  destruct (directive_of line) as [[d arg]|] eqn:Hd.
  - intros Hk. rewrite (exec_line_directive_of E inc line d arg c Hd).
    by apply exec_directive_unknown.
  - intros _. apply exec_line_short. unfold directive_of in Hd.
    destruct (strings.Fields line) as [|a [|b r]]; simpl; try done; lia.
Qed.

(** X12: before the first label the directives that work on the current
    entry do nothing: a [kernel], [linux], [initrd] or [menu] line leaves
    the parser as it is, and nothing is resolved or fetched for it (the
    result is the same whatever the fetcher would answer). *)
Theorem X12_no_entry_no_effect inc line d arg c :
  reachable E c →
  scope c = scopeGlobal →
  directive_of line = Some (d, arg) →
  d ∈ ["kernel"; "linux"; "initrd"; "menu"] →
  exec_line E inc line c = Ok c.
Proof.
  intros Hr Hs Hd Hin.
  destruct (reachable_nothing_global E c Hr Hs) as (Hm & _ & _).
  rewrite (exec_line_directive_of E inc line d arg c Hd).
  unfold exec_directive. rewrite Hm, lookup_empty, Hs.
  repeat (apply elem_of_cons in Hin as [->|Hin]); simpl; try done;
    [|by inversion Hin].
  destruct (strings.Fields arg) as [|o rest]; [done|].
  by repeat case_decide.
Qed.

(** *** The [menu] directive *)

Lemma exec_directive_menu inc arg c :
  exec_directive E inc "menu" arg c
  = match strings.Fields arg with
    | [] => Ok c
    | o :: rest =>
        if decide (strings.ToLower o = "label") then
          match linuxEntries c !! curEntry c with
          | Some e =>
              if decide (1 < Datatypes.length (o :: rest)) then
                Ok (store (curEntry c)
                          (set_Name (strings.Join rest " ") e) c)
              else Ok c
          | None => Ok c
          end
        else if decide (strings.ToLower o = "default") then
          match scope c with
          | scopeEntry => Ok (set_defaultEntry (curEntry c) c)
          | scopeGlobal => Ok c
          end
        else Ok c
    end.
Proof. reflexivity. Qed.

(** X13: [menu label TEXT] gives the current entry the display name TEXT,
    its words joined by single spaces, and changes nothing else: not the
    identifier under which the entry is kept, not the label order.
    Without text, or without an entry for the current label, the line does
    nothing. *)
Theorem X13_menu_label inc line m lab text c :
  strings.Fields line = m :: lab :: text →
  strings.ToLower m = "menu" →
  strings.ToLower lab = "label" →
  exec_line E inc line c
  = match linuxEntries c !! curEntry c, text with
    | Some e, _ :: _ =>
        Ok (store (curEntry c) (set_Name (strings.Join text " ") e) c)
    | _, _ => Ok c
    end.
Proof.
  intros HF Hm Hlab.
  rewrite (exec_line_directive E inc line m lab text c HF), Hm.
  rewrite exec_directive_menu.
  pose proof (Fields_ok line) as Hok. rewrite HF in Hok.
  apply Forall_cons in Hok as [_ Hok]. rewrite (Fields_Join _ Hok).
  rewrite Hlab, decide_True by done.
  destruct (linuxEntries c !! curEntry c) as [e|]; [|done].
  destruct text as [|t ts].
  - rewrite decide_False; [done|]. simpl. lia.
  - rewrite decide_True; [done|]. simpl. lia.
Qed.

(** X14: [menu default] makes the current label the default, but only
    after a label has been seen; in global scope the line does nothing.
    Further words on the line are ignored. *)
Theorem X14_menu_default inc line m dflt rest c :
  strings.Fields line = m :: dflt :: rest →
  strings.ToLower m = "menu" →
  strings.ToLower dflt = "default" →
  exec_line E inc line c
  = match scope c with
    | scopeEntry => Ok (set_defaultEntry (curEntry c) c)
    | scopeGlobal => Ok c
    end.
Proof.
  intros HF Hm Hd.
  rewrite (exec_line_directive E inc line m dflt rest c HF), Hm.
  rewrite exec_directive_menu.
  pose proof (Fields_ok line) as Hok. rewrite HF in Hok.
  apply Forall_cons in Hok as [_ Hok]. rewrite (Fields_Join _ Hok).
  rewrite Hd. rewrite decide_False by done. by rewrite decide_True.
Qed.

(** *** Repeated [append] *)

(** X15: of several [append] lines in the scope of a label only the last
    counts, and a lone dash as its argument clears the command line: after
    two [append] lines the current entry has the argument of the second as
    command line (empty for the dash) and is otherwise as before; nothing
    else in the parser has changed. *)
Theorem X15_last_append_wins inc l1 l2 Y1 Y2 c :
  reachable E c →
  scope c = scopeEntry →
  directive_of l1 = Some ("append", Y1) →
  directive_of l2 = Some ("append", Y2) →
  ∃ e, linuxEntries c !! curEntry c = Some e
       ∧ run_lines E inc [l1; l2] c
         = Ok (store (curEntry c)
                     (set_Cmdline (if decide (Y2 = "-") then "" else Y2) e)
                     c).
Proof.
  intros Hr Hs H1 H2.
  destruct (reachable_entry_scope E c Hr Hs) as [e He].
  exists e. split; [done|]. simpl.
  rewrite (exec_line_directive_of E inc l1 _ _ c H1).
  unfold exec_directive at 1. simpl. rewrite Hs, He.
  assert (∀ Y,
            exec_line E inc l2 (store (curEntry c) (set_Cmdline Y e) c)
            = Ok (store (curEntry c)
                    (set_Cmdline (if decide (Y2 = "-") then "" else Y2) e)
                    c)) as Hsecond.
  { intros Y. rewrite (exec_line_directive_of E inc l2 _ _ _ H2).
    unfold exec_directive. simpl. rewrite Hs, lookup_insert_eq.
    unfold store, set_linuxEntries. simpl.
    case_decide; by rewrite insert_insert_eq. }
  destruct (decide (Y1 = "-")); by rewrite Hsecond.
Qed.

End MoreLines.

(** ** Further properties: what a parse keeps, and where handles come from *)
Section MoreGrowth.

Context {handle : Type}.
Implicit Types (c : parser handle) (e : LinuxImage handle).
Variable E : Env handle.

Lemma order_grows_directive (o : list string) d arg :
  preserves (λ c, o `prefix_of` labelOrder c)
            (exec_directive E no_include d arg).
Proof.
  intros c Hc. directive_cases; try done.
  by apply prefix_app_r.
Qed.

Lemma order_grows_backfill (o : list string) :
  preserves (λ c, o `prefix_of` labelOrder c) (backfill E).
Proof. apply backfill_preserves. intros c c' [-> _] Hc. done. Qed.

(** X24: whatever configuration is appended, what was declared before
    stays in place: the label order from before is a prefix of the label
    order after, and every label that had an entry still has one; so also
    when the call ends in an error. *)
Theorem X24_declarations_are_kept fuel c c' :
  (∀ url, leaves (appendFile E fuel url c) c' →
          labelOrder c `prefix_of` labelOrder c'
          ∧ ∀ l, is_Some (linuxEntries c !! l)
                 → is_Some (linuxEntries c' !! l))
  ∧ (∀ config, leaves (append E fuel config c) c' →
               labelOrder c `prefix_of` labelOrder c'
               ∧ ∀ l, is_Some (linuxEntries c !! l)
                      → is_Some (linuxEntries c' !! l)).
Proof.
  split.
  - intros url Hl. split.
    + eapply (leaves_res_holds (λ c0, labelOrder c `prefix_of` labelOrder c0));
        [|exact Hl].
      apply appendFile_preserves;
        [apply order_grows_directive|apply order_grows_backfill|done].
    + eapply (leaves_res_holds
                (λ c0, ∀ l, is_Some (linuxEntries c !! l)
                            → is_Some (linuxEntries c0 !! l)));
        [|exact Hl].
      apply appendFile_preserves;
        [apply keys_kept_directive|apply keys_kept_backfill|done].
  - intros config Hl. split.
    + eapply (leaves_res_holds (λ c0, labelOrder c `prefix_of` labelOrder c0));
        [|exact Hl].
      apply append_preserves;
        [apply order_grows_directive|apply order_grows_backfill|done].
    + eapply (leaves_res_holds
                (λ c0, ∀ l, is_Some (linuxEntries c !! l)
                            → is_Some (linuxEntries c0 !! l)));
        [|exact Hl].
      apply append_preserves;
        [apply keys_kept_directive|apply keys_kept_backfill|done].
Qed.

(** *** Handles *)

Lemma getFile_fetched c url h :
  getFile E c url = Got h → ∃ u, LazyFetch E u = Got h.
Proof.
  unfold getFile. destruct (parseURL E url (wd c)) as [u|]; [|done]. eauto.
Qed.

Lemma handles_directive d arg :
  preserves (all_handles_fetched E) (exec_directive E no_include d arg).
Proof.
  intros c Hc. unfold all_handles_fetched in *.
  unfold exec_directive, no_include.
  repeat first
    [ progress simpl
    | case_decide
    | match goal with
      | |- context [match getFile E c ?a with _ => _ end] =>
          destruct (getFile E c a) eqn:?
      | |- context [match ?x with _ => _ end] => destruct x eqn:?
      end ]; try done; intros lbl e0 Hlbl;
    try (by eapply Hc);
    (destruct (decide (lbl = curEntry c)) as [->|Hne];
     [rewrite lookup_insert_eq in Hlbl; injection Hlbl as <-
     |rewrite lookup_insert_ne in Hlbl by done; by eapply Hc]) ||
    (destruct (decide (lbl = arg)) as [->|Hne];
     [rewrite lookup_insert_eq in Hlbl; injection Hlbl as <-
     |rewrite lookup_insert_ne in Hlbl by done; by eapply Hc]).
  all: try (match goal with
            | H : linuxEntries ?c0 !! curEntry ?c0 = Some ?e1 |- _ =>
                destruct (Hc _ _ H) as [HK HI]
            end;
            split; simpl; intros h0 Hh; eauto;
            injection Hh as <-; by eapply getFile_fetched).
  split; simpl; intros h0 Hh; done.
Qed.

Lemma scan_cmdline_handles c opts e :
  handles_fetched E e →
  res_holds (handles_fetched E) (scan_cmdline E c opts e).
Proof.
  revert e. induction opts as [|opt opts IH]; intros e He; simpl; [done|].
  destruct (strings.Split opt "=") as [|k vs]; [done|].
  case_decide; [|by apply IH].
  destruct vs as [|v vs]; [done|].
  destruct (getFile E c v) as [i|err] eqn:Hv; simpl; [|done].
  apply IH. destruct He as [HK HI]. split; simpl; [done|].
  intros h [= <-]. by eapply getFile_fetched.
Qed.

Lemma handles_backfill_keys keys :
  preserves (all_handles_fetched E) (backfill_keys E keys).
Proof.
  assert (∀ c k ek', all_handles_fetched E c → handles_fetched E ek' →
            all_handles_fetched E (store k ek' c)) as Hstore.
  { intros c k ek' Hc Hek l e Hl. simpl in Hl.
    destruct (decide (k = l)) as [->|Hne].
    - rewrite lookup_insert_eq in Hl. by injection Hl as <-.
    - rewrite lookup_insert_ne in Hl by done. by eapply Hc. }
  induction keys as [|k keys IH]; intros c Hc; simpl; [done|].
  destruct (linuxEntries c !! k) as [ek|] eqn:Hk; [|by apply IH].
  destruct (Initrd ek); [by apply IH|].
  pose proof (scan_cmdline_handles c (strings.Fields (Cmdline ek)) ek
                (Hc k ek Hk)) as Hs.
  destruct (scan_cmdline E c _ ek) as [ek'|err ek'| |]; simpl in *; auto.
Qed.

Lemma reachable_handles c : reachable E c → all_handles_fetched E c.
Proof.
  apply (reachable_holds E (all_handles_fetched E)).
  - apply handles_directive.
  - intros c0 Hc0. apply (handles_backfill_keys _ c0 Hc0).
  - intros w l e Hl. simpl in Hl. by rewrite lookup_empty in Hl.
Qed.

Lemma elem_of_collect_images c (labels : list string) img :
  img ∈ collect_images c labels → ∃ l, linuxEntries c !! l = Some img.
Proof.
  induction labels as [|l r IH]; simpl; [by intros H; inversion H|].
  destruct (linuxEntries c !! l) as [e|] eqn:Hl; [|exact IH].
  intros [->|Hin]%elem_of_cons; eauto.
Qed.

(** X25: the parser invents no handle and no image: every image
    [ParseConfigFile] returns is an entry of the final state, and whatever
    kernel or initrd handle it carries is one the lazy fetch handed out. *)
Theorem X25_images_carry_fetched_handles fuel url w imgs img :
  ParseConfigFile E fuel url w = Ok imgs →
  img ∈ imgs →
  handles_fetched E img
  ∧ ∃ c l, appendFile E fuel url (newParser w) = Ok c
           ∧ linuxEntries c !! l = Some img.
Proof.
  unfold ParseConfigFile.
  destruct (appendFile E fuel url (newParser w)) as [c|err c| |] eqn:Hc;
    try done.
  intros [= <-] Hin.
  assert (∃ l, linuxEntries c !! l = Some img) as [l Hl].
  { unfold images_of in Hin. destruct (labelOrder c); [by inversion Hin|].
    by eapply elem_of_collect_images. }
  assert (reachable E c) as Hr.
  { eapply appendFile_reachable; [apply reach_new|]. left. exact Hc. }
  split; [by eapply (reachable_handles c Hr)|]. by exists c, l.
Qed.

End MoreGrowth.

(** ** Further properties: resolving references, and where errors come from *)
Section MoreErrors.

Context {handle : Type}.
Implicit Types (c : parser handle) (e : LinuxImage handle).
Implicit Types (inc : string → parser handle → result (parser handle)).
Variable E : Env handle.

(** X16: resolving a reference fails only when [url.Parse] refuses it, and
    then with the malformed-reference error naming it.  A reference with a
    scheme, and any reference when there is no working directory, is
    returned as parsed; every other reference gets the scheme of the
    working directory, so with a working directory that has a scheme no
    resolved URL is without one. *)
Theorem X16_parseURL_contract surl w :
  (∀ err, parseURL E surl w = Failed err
          ↔ url_Parse E surl = None ∧ err = MalformedReference surl)
  ∧ (∀ u, url_Parse E surl = Some u → Scheme u ≠ "" ∨ w = None →
          parseURL E surl w = Got u)
  ∧ (∀ u0 u wdir, url_Parse E surl = Some u0 → Scheme u0 = "" →
          w = Some wdir → parseURL E surl w = Got u →
          Scheme u = Scheme wdir
          ∧ Host u = (if decide (Host u0 = "") then Host wdir else Host u0))
  ∧ (∀ u wdir, w = Some wdir → Scheme wdir ≠ "" →
          parseURL E surl w = Got u → Scheme u ≠ "").
Proof.
  unfold parseURL. split; [|split; [|split]].
  - intros err. split.
    + destruct (url_Parse E surl) as [u|]; [|by intros [= <-]].
      destruct w as [wdir|]; repeat case_decide; done.
    + intros [Hp ->]. by rewrite Hp.
  - intros u Hp Hs. rewrite Hp. destruct Hs as [Hs| ->]; [|done].
    destruct w as [wdir|]; [|done]. by rewrite decide_False.
  - intros u0 u wdir Hp Hs ->. rewrite Hp. rewrite decide_True by done.
    destruct (decide (Host u0 = "")); by intros [= <-].
  - intros u wdir -> Hw. destruct (url_Parse E surl) as [u1|]; [|done].
    repeat case_decide; intros [= <-]; done.
Qed.

Lemma parseURL_from_world surl w err :
  parseURL E surl w = Failed err → from_world E err.
Proof.
  unfold parseURL. destruct (url_Parse E surl) as [u|] eqn:Hp.
  - destruct w as [wdir|]; repeat case_decide; done.
  - intros [= <-]. left. by exists surl.
Qed.

Lemma getFile_from_world c url err :
  getFile E c url = Failed err → from_world E err.
Proof.
  unfold getFile. destruct (parseURL E url (wd c)) as [u|err0] eqn:Hp.
  - intros Hl. right. right. by exists u.
  - intros [= <-]. by eapply parseURL_from_world.
Qed.

Lemma exec_directive_from_world d arg c :
  err_holds (from_world E) (exec_directive E no_include d arg c).
Proof.
  unfold exec_directive, no_include.
  repeat first
    [ progress simpl
    | case_decide
    | match goal with
      | |- context [match getFile E c ?a with _ => _ end] =>
          destruct (getFile E c a) eqn:?
      | |- context [match ?x with _ => _ end] => destruct x eqn:?
      end ]; try done; by eapply getFile_from_world.
Qed.

Lemma exec_line_from_world inc line c :
  (∀ a c0, err_holds (from_world E) (inc a c0)) →
  err_holds (from_world E) (exec_line E inc line c).
Proof.
  intros Hinc.
  assert (∀ d arg, err_holds (from_world E) (exec_directive E inc d arg c))
    as Hd.
  { intros d arg. destruct (decide (d = "include")) as [->|Hne].
    - rewrite exec_directive_include. specialize (Hinc arg c).
      destruct (inc arg c) as [c'|err c'| |]; simpl in *; try done.
      by destruct (IsURLError err).
    - rewrite exec_directive_no_include by done.
      apply exec_directive_from_world. }
  unfold exec_line.
  destruct (strings.Fields line) as [|kv0 [|kv1 [|kv2 rest]]]; simpl; auto;
    apply Hd.
Qed.

Lemma run_lines_from_world inc lines c :
  (∀ a c0, err_holds (from_world E) (inc a c0)) →
  err_holds (from_world E) (run_lines E inc lines c).
Proof.
  intros Hinc. revert c. induction lines as [|l lines IH]; intros c; simpl;
    [done|].
  pose proof (exec_line_from_world inc l c Hinc) as Hl.
  destruct (exec_line E inc l c) as [c'|err c'| |]; simpl in *; auto.
Qed.

Lemma backfill_from_world c : err_holds (from_world E) (backfill E c).
Proof.
  pose proof (backfill_keys_failure E (range_keys E (linuxEntries c)) c) as H.
  unfold backfill. destruct (backfill_keys E _ c) as [c'|err c'| |]; try done.
  simpl. destruct H as (l & e & v & _ & _ & _ & Hg).
  by eapply getFile_from_world.
Qed.

Lemma appendFile_from_world fuel url c :
  err_holds (from_world E) (appendFile E fuel url c).
Proof.
  revert url c. induction fuel as [|fuel IH]; intros url c; simpl; [done|].
  unfold appendFile_body, append_body.
  destruct (parseURL E url (wd c)) as [u|err] eqn:Hp; simpl.
  2:{ by eapply parseURL_from_world. }
  destruct (Fetch E u) as [config|err] eqn:Hf; simpl.
  2:{ right. left. by exists u. }
  pose proof (run_lines_from_world (appendFile E fuel)
                (strings.Split config "010") c IH) as Hr.
  destruct (run_lines E (appendFile E fuel) _ c) as [c'|err c'| |];
    simpl in *; auto.
  apply backfill_from_world.
Qed.

(** X17: the parser makes no error of its own but the malformed-reference
    one: an error [ParseConfigFile] returns is a reference [url.Parse]
    refused or a failure the fetcher reported, and no images come with
    it. *)
Theorem X17_errors_come_from_the_world fuel url w err imgs :
  ParseConfigFile E fuel url w = Err err imgs →
  from_world E err ∧ imgs = [].
Proof.
  unfold ParseConfigFile.
  pose proof (appendFile_from_world fuel url (newParser w)) as H.
  destruct (appendFile E fuel url (newParser w)) as [c'|err' c'| |];
    try done.
  by intros [= <- <-].
Qed.

Lemma try_candidate_from_world fuel diskDir relname :
  err_holds (from_world E) (try_candidate E fuel diskDir relname).
Proof.
  unfold try_candidate. destruct (filepath.Split relname) as [dir name].
  unfold ParseConfigFile.
  pose proof (appendFile_from_world fuel name
                (newParser (Some {| Scheme := "file"; Host := "";
                                    Path := filepath.Join [diskDir; dir] |})))
    as H.
  destruct (appendFile E fuel name _) as [c'|err' c'| |]; done.
Qed.

Lemma probe_loop_errors fuel diskDir candidates err imgs :
  probe_loop E fuel diskDir candidates = Err err imgs →
  IsURLError err = false
  ∧ (err = NoValidConfig diskDir ∨ from_world E err).
Proof.
  induction candidates as [|p rest IH]; simpl.
  { intros [= <- <-]. split; [done|by left]. }
  pose proof (try_candidate_from_world fuel diskDir p) as Hw.
  destruct (try_candidate E fuel diskDir p) as [i|err' i| |]; try done.
  simpl in Hw. destruct (IsURLError err') eqn:Hu; [exact IH|].
  intros [= <- <-]. split; [done|by right].
Qed.

(** X18: [ParseLocalConfig] never hands a [NotFound]-class error to its
    caller: an error it returns is the no-valid-configuration error for
    the directory it was given, or a fatal error of the world around the
    parser. *)
Theorem X18_local_probe_errors fuel diskDir err imgs :
  ParseLocalConfig E fuel diskDir = Err err imgs →
  IsURLError err = false
  ∧ (err = NoValidConfig diskDir ∨ from_world E err).
Proof. apply probe_loop_errors. Qed.

(** X23: includes are followed without any check for cycles: when the
    first directive of a file includes that same file, the parse never
    returns, whatever depth of nesting is allowed. *)
Theorem X23_self_include_diverges url w u config pre line post :
  parseURL E url w = Got u →
  Fetch E u = Got config →
  strings.Split config "010" = pre ++ line :: post →
  Forall (λ l, directive_of l = None) pre →
  directive_of line = Some ("include", url) →
  ∀ fuel c, wd c = w → appendFile E fuel url c = OutOfFuel.
Proof.
  intros Hu Hf Hsp Hpre Hline fuel.
  assert (∀ inc c, run_lines E inc pre c = Ok c) as Hinert.
  { clear Hsp. intros inc c.
    induction Hpre as [|l pre Hl _ IH]; [done|]. simpl.
    rewrite exec_line_short; [exact IH|]. unfold directive_of in Hl.
    destruct (strings.Fields l) as [|a [|b r]]; simpl; try done; lia. }
  induction fuel as [|fuel IH]; intros c Hwd; [done|]. simpl.
  unfold appendFile_body, append_body. rewrite Hwd, Hu, Hf, Hsp.
  rewrite run_lines_app, Hinert. simpl.
  rewrite (exec_line_directive_of E _ line _ _ c Hline).
  rewrite exec_directive_include. by rewrite (IH c Hwd).
Qed.

End MoreErrors.

(** ** Further properties: the helpers of the [ip] command *)
Section MoreIp.

Local Open Scope nat_scope.

Lemma one_loop_spec (cmd : string) (cmds : list string) (i x n : nat) :
  let matches := filter (λ v, ip.HasPrefix v cmd = true) cmds in
  (ip.one_loop cmd cmds i x n).2 = n + Datatypes.length matches
  ∧ (matches = [] → (ip.one_loop cmd cmds i x n).1 = x)
  ∧ (∀ v, last matches = Some v →
          ∃ k, (ip.one_loop cmd cmds i x n).1 = i + k ∧ cmds !! k = Some v).
Proof.
  revert i x n. induction cmds as [|c cmds IH]; intros i x n; simpl.
  { repeat split; [lia|done]. }
  rewrite filter_cons. destruct (ip.HasPrefix c cmd) eqn:Hc.
  - rewrite decide_True by done.
    destruct (IH (S i) i (S n)) as (Hn & Hx & Hl). simpl in *.
    split; [lia|]. split; [done|].
    intros v. rewrite last_cons.
    destruct (last (filter _ cmds)) as [v'|] eqn:Hlast.
    + intros [= <-]. destruct (Hl v' eq_refl) as (k & Hk & Hv).
      exists (S k). split; [lia|done].
    + intros [= <-]. exists 0. split; [|done].
      rewrite Hx; [lia|]. by apply last_None.
  - rewrite decide_False by done.
    destruct (IH (S i) x n) as (Hn & Hx & Hl). simpl in *.
    split; [done|]. split; [done|].
    intros v Hv. destruct (Hl v Hv) as (k & Hk & Hv').
    exists (S k). split; [lia|done].
Qed.

(** X19: [one] resolves an abbreviation: it returns the command when
    exactly one entry of the list starts with the word, and the empty
    string when none or several do; it never reads outside the list. *)
Theorem X19_one_unique_prefix (cmd : string) (cmds : list string) :
  ip.one cmd cmds
  = Some (match filter (λ v, ip.HasPrefix v cmd = true) cmds with
          | [v] => v
          | _ => ""
          end).
Proof.
  unfold ip.one.
  destruct (one_loop_spec cmd cmds 0 0 0) as (Hn & _ & Hl).
  destruct (ip.one_loop cmd cmds 0 0 0) as [x n]. simpl in *.
  destruct (filter (λ v, ip.HasPrefix v cmd = true) cmds) as [|v [|v' r]];
    simpl in *.
  - by rewrite decide_False by lia.
  - rewrite decide_True by lia.
    destruct (Hl v eq_refl) as (k & -> & Hv). done.
  - by rewrite decide_False by lia.
Qed.

Lemma HasPrefix_refl (s : string) : ip.HasPrefix s s = true.
Proof. induction s as [|a s IH]; simpl; [done|]. by rewrite decide_True. Qed.

(** X20: an exact match does not win over a longer command: when the word
    is itself in the list and another entry of the list starts with it,
    [one] returns the empty string. *)
Theorem X20_one_exact_match_is_ambiguous (cmd other : string)
    (cmds : list string) (i j : nat) :
  i ≠ j →
  cmds !! i = Some cmd →
  cmds !! j = Some other →
  ip.HasPrefix other cmd = true →
  ip.one cmd cmds = Some "".
Proof.
  intros Hij Hi Hj Hp.
  assert (∀ (l : list string) i j a b,
            i < j → l !! i = Some a → l !! j = Some b →
            ip.HasPrefix a cmd = true → ip.HasPrefix b cmd = true →
            2 ≤ Datatypes.length
                  (filter (λ v, ip.HasPrefix v cmd = true) l)) as Htwo.
  { clear. induction l as [|c l IH]; intros i j a b Hlt Hi Hj Ha Hb;
      [done|].
    rewrite filter_cons. destruct i as [|i].
    - injection Hi as ->. rewrite decide_True by done. simpl.
      destruct j as [|j]; [lia|]. simpl in Hj.
      assert (b ∈ filter (λ v, ip.HasPrefix v cmd = true) l) as Hin.
      { apply list_elem_of_filter. split; [done|].
        by eapply list_elem_of_lookup_2. }
      destruct (filter _ l); [by inversion Hin|simpl; lia].
    - destruct j as [|j]; [lia|]. simpl in Hi, Hj.
      assert (i < j) as Hlt' by lia.
      specialize (IH i j a b Hlt' Hi Hj Ha Hb).
      case_decide; simpl; lia. }
  assert (2 ≤ Datatypes.length
                (filter (λ v, ip.HasPrefix v cmd = true) cmds)) as Hlen.
  { destruct (decide (i < j)).
    - apply (Htwo cmds i j cmd other); try done. apply HasPrefix_refl.
    - apply (Htwo cmds j i other cmd); try done; [lia|].
      apply HasPrefix_refl. }
  unfold ip.one.
  destruct (one_loop_spec cmd cmds 0 0 0) as (Hn & _ & _).
  destruct (ip.one_loop cmd cmds 0 0 0) as [x n]. simpl in *.
  by rewrite decide_False by lia.
Qed.

(** *** The swap loop of [hexToBytes] *)

Lemma swap_loop_spec (steps i : nat) (x : list Z) :
  2 * (i + steps) ≤ Datatypes.length x →
  ∃ y, ip.swap_loop steps i x = Some y
       ∧ Datatypes.length y = Datatypes.length x
       ∧ ∀ k, y !! k
              = if decide (i ≤ k < i + steps
                           ∨ Datatypes.length x - i - steps ≤ k
                             < Datatypes.length x - i)
                then x !! (Datatypes.length x - 1 - k)
                else x !! k.
Proof.
  revert i x. induction steps as [|steps IH]; intros i x Hle.
  { exists x. repeat split; try done. intros k.
    rewrite decide_False; [done|lia]. }
  simpl.
  destruct (lookup_lt_is_Some_2 x (Datatypes.length x - i - 1)) as [b Hb];
    [lia|].
  destruct (lookup_lt_is_Some_2 x i) as [a Ha]; [lia|].
  rewrite Hb, Ha.
  set (j := Datatypes.length x - i - 1) in *.
  set (x' := <[j := a]> (<[i := b]> x)).
  assert (Datatypes.length x' = Datatypes.length x) as Hlen.
  { unfold x'. by rewrite !length_insert. }
  destruct (IH (S i) x') as (y & Hy & Hly & Hk); [lia|].
  exists y. split; [done|]. split; [lia|].
  intros k. rewrite Hk, Hlen. unfold x'.
  rewrite !list_lookup_insert, !length_insert.
  repeat case_decide; try lia; try done;
    try (replace (Datatypes.length x - 1 - k) with i by lia; done);
    try (replace (Datatypes.length x - 1 - k) with j by lia; done);
    try (replace k with i by lia; done);
    try (replace k with j by lia; done).
Qed.

Lemma swap_loop_reverse (x : list Z) :
  ip.swap_loop (Datatypes.length x / 2) 0 x = Some (reverse x).
Proof.
  pose proof (Nat.div_mod_eq (Datatypes.length x) 2) as Hdiv.
  pose proof (Nat.mod_upper_bound (Datatypes.length x) 2) as Hmod.
  destruct (swap_loop_spec (Datatypes.length x / 2) 0 x)
    as (y & Hy & Hlen & Hk); [lia|].
  rewrite Hy. f_equal. apply list_eq. intros k. rewrite Hk.
  destruct (decide (k < Datatypes.length x)) as [Hlt|Hge].
  - rewrite reverse_lookup by done.
    case_decide.
    + f_equal. lia.
    + f_equal. lia.
  - rewrite decide_False by lia.
    rewrite (proj2 (lookup_ge_None x k)) by lia.
    symmetry. apply lookup_ge_None. rewrite length_reverse. lia.
Qed.

(** X21: the swap loop of [hexToBytes] reverses the slice, whatever its
    length, and never reads or writes outside it; run twice, it gives the
    slice back. *)
Theorem X21_swap_loop_reverses (x : list Z) :
  ip.swap_loop (Datatypes.length x / 2) 0 x = Some (reverse x)
  ∧ (ip.swap_loop (Datatypes.length x / 2) 0 x
     ≫= λ y, ip.swap_loop (Datatypes.length y / 2) 0 y) = Some x.
Proof.
  split; [apply swap_loop_reverse|].
  rewrite swap_loop_reverse.
  change (ip.swap_loop (Datatypes.length (reverse x) / 2) 0 (reverse x)
          = Some x).
  by rewrite swap_loop_reverse, reverse_involutive.
Qed.

Lemma Decode_length (xs : string) (bytes : list Z) :
  ip.Decode xs = (bytes, None) →
  String.length xs = 2 * Datatypes.length bytes.
Proof.
  revert bytes.
  assert (∀ n xs, String.length xs ≤ n → ∀ bytes,
            ip.Decode xs = (bytes, None) →
            String.length xs = 2 * Datatypes.length bytes) as H.
  { induction n as [|n IH]; intros [|a [|b rest]] Hn bytes; simpl in *;
      try lia; try (by intros [= <-]);
      try (destruct (ip.fromHexChar a); done).
    destruct (ip.fromHexChar a); [|done].
    destruct (ip.fromHexChar b); [|done].
    destruct (ip.Decode rest) as [bs err] eqn:Hd.
    intros [= <- ->]. simpl. rewrite (IH rest) with (bytes := bs); [lia|lia|done]. }
  intros bytes. by apply (H (String.length xs)).
Qed.

(** X22: [hexToBytes] succeeds only on 8 or 32 hexadecimal digits, and
    what it returns is the decoded bytes in reverse order; it never
    panics. *)
Theorem X22_hexToBytes_result (xs : string) :
  match ip.hexToBytes xs with
  | ip.Done r =>
      ip.Decode xs = (reverse r, None)
      ∧ (String.length xs = 8 ∨ String.length xs = 32)
      ∧ 2 * Datatypes.length r = String.length xs
  | ip.Fail (ip.HexError err) => ∃ bytes, ip.Decode xs = (bytes, Some err)
  | ip.Fail (ip.InvalidLength n) =>
      ∃ bytes, ip.Decode xs = (bytes, None)
               ∧ n = Datatypes.length bytes ∧ n ≠ 4 ∧ n ≠ 16
  | ip.Crash => False
  end.
Proof.
  unfold ip.hexToBytes. destruct (ip.Decode xs) as [x [err|]] eqn:Hd.
  { by exists x. }
  case_decide as Hlen.
  { exists x. repeat split; tauto. }
  rewrite swap_loop_reverse. rewrite reverse_involutive.
  pose proof (Decode_length xs x Hd) as Hl. rewrite length_reverse.
  split; [done|]. split; [|lia].
  destruct (decide (Datatypes.length x = 4)) as [H4|H4]; [lia|].
  destruct (decide (Datatypes.length x = 16)) as [H16|H16]; [lia|].
  tauto.
Qed.

End MoreIp.

(** ** Concrete runs of the further properties *)

Lemma default_final_reachable : reachable default_world default_final.
Proof.
  apply (appendFile_reachable default_world 1 "main.cfg" (newParser mnt)).
  - apply reach_new.
  - left. vm_compute. reflexivity.
Qed.

Lemma one_label_reachable : reachable (env [] [] []) one_label.
Proof.
  apply (reach_line _ 0 "label A" (newParser mnt)).
  - apply reach_new.
  - left. vm_compute. reflexivity.
Qed.

Lemma X3_witness :
  (∀ l, l ∈ output_labels default_final
        ↔ is_Some (linuxEntries default_final !! l))
  ∧ ∃ imgs, ParseConfigFile default_world 1 "main.cfg" mnt = Ok imgs
            ∧ Datatypes.length imgs = size (linuxEntries default_final).
Proof.
  apply (X3_output_complete default_world 1 "main.cfg" mnt default_final).
  vm_compute. reflexivity.
Defined.

Lemma X4_witness :
  (ParseConfigFile default_world 1 "main.cfg" mnt = Ok []
   ↔ scope default_final = scopeGlobal)
  ∧ (scope default_final = scopeGlobal ↔ labelOrder default_final = []).
Proof.
  apply (X4_empty_output_iff_no_label default_world 1 "main.cfg" mnt
           default_final).
  vm_compute. reflexivity.
Defined.

Lemma X5_witness :
  head (images_of default_final) = Some (image "B" "" None None).
Proof.
  rewrite (X5_first_image default_world default_final
             default_final_reachable).
  vm_compute. reflexivity.
Defined.

Lemma X6_witness :
  labelOrder two_initrd_after = labelOrder two_initrd_before
  ∧ defaultEntry two_initrd_after = defaultEntry two_initrd_before
  ∧ nerfDefaultEntry two_initrd_after = nerfDefaultEntry two_initrd_before
  ∧ globalAppend two_initrd_after = globalAppend two_initrd_before
  ∧ scope two_initrd_after = scope two_initrd_before
  ∧ curEntry two_initrd_after = curEntry two_initrd_before
  ∧ wd two_initrd_after = wd two_initrd_before
  ∧ ∀ l, match linuxEntries two_initrd_before !! l,
               linuxEntries two_initrd_after !! l with
         | Some e, Some e' =>
             Name e' = Name e ∧ Cmdline e' = Cmdline e
             ∧ Kernel e' = Kernel e
             ∧ (is_Some (Initrd e) → e' = e)
         | None, None => True
         | _, _ => False
         end.
Proof.
  apply (X6_backfill_frame two_initrd_world two_initrd_before
           two_initrd_after).
  left. vm_compute. reflexivity.
Defined.

Lemma X7_witness :
  backfill two_initrd_world two_initrd_after = Ok two_initrd_after.
Proof.
  apply (X7_backfill_idempotent two_initrd_world two_initrd_before).
  vm_compute. reflexivity.
Defined.

Lemma X10_witness :
  "Y Z" ≠ ""
  ∧ strings.Join (strings.Fields "Y Z") " " = "Y Z"
  ∧ ∃ kv0 rest,
      strings.Fields "APPEND Y  Z" = kv0 :: rest ∧ rest ≠ []
      ∧ "append" = strings.ToLower kv0
      ∧ strings.Fields "Y Z" = rest
      ∧ Forall field_ok rest.
Proof.
  apply (X10_directive_argument "APPEND Y  Z" "append" "Y Z").
  reflexivity.
Defined.

Lemma X11_witness :
  exec_line (env [] [] []) no_include "# a comment" one_label = Ok one_label
  ∧ exec_line (env [] [] []) no_include "timeout 50" one_label
    = Ok one_label
  ∧ exec_line (env [] [] []) no_include "   " one_label = Ok one_label.
Proof.
  assert (∀ d, d ≠ "default" → d ≠ "nerfdefault" → d ≠ "include" →
               d ≠ "menu" → d ≠ "label" → d ≠ "kernel" → d ≠ "linux" →
               d ≠ "initrd" → d ≠ "append" → d ∉ keywords) as Hk.
  { intros d ????????? Hin. unfold keywords in Hin.
    repeat (apply elem_of_cons in Hin as [Hin|Hin]; [done|]).
    by inversion Hin. }
  split; [|split];
    apply (X11_inert_lines (env [] [] []) no_include); simpl;
    try exact I; apply Hk; discriminate.
Defined.

Lemma X12_witness :
  exec_line (env [] [] ["/mnt/vmlinuz"]) no_include "kernel vmlinuz"
            (newParser mnt)
  = Ok (newParser mnt).
Proof.
  apply (X12_no_entry_no_effect (env [] [] ["/mnt/vmlinuz"]) no_include
           "kernel vmlinuz" "kernel" "vmlinuz" (newParser mnt)).
  - apply reach_new.
  - reflexivity.
  - reflexivity.
  - by left.
Defined.

Lemma X13_witness :
  exec_line (env [] [] []) no_include "MENU  Label  My   Linux" one_label
  = Ok (store "A" (image "My Linux" "" None None) one_label).
Proof.
  rewrite (X13_menu_label (env [] [] []) no_include
             "MENU  Label  My   Linux" "MENU" "Label" ["My"; "Linux"]
             one_label eq_refl eq_refl eq_refl).
  vm_compute. reflexivity.
Defined.

Lemma X14_witness :
  exec_line (env [] [] []) no_include "menu default" one_label
  = Ok (set_defaultEntry "A" one_label)
  ∧ exec_line (env [] [] []) no_include "menu default" (newParser mnt)
    = Ok (newParser mnt).
Proof.
  split.
  - apply (X14_menu_default (env [] [] []) no_include "menu default"
             "menu" "default" [] one_label); reflexivity.
  - apply (X14_menu_default (env [] [] []) no_include "menu default"
             "menu" "default" [] (newParser mnt)); reflexivity.
Defined.

Lemma X15_witness :
  ∃ e, linuxEntries one_label !! curEntry one_label = Some e
       ∧ run_lines (env [] [] []) no_include ["append a b"; "append -"]
                   one_label
         = Ok (store (curEntry one_label)
                     (set_Cmdline (if decide ("-" = "-") then "" else "-") e)
                     one_label).
Proof.
  apply (X15_last_append_wins (env [] [] []) no_include
           "append a b" "append -" "a b" "-" one_label).
  - exact one_label_reachable.
  - reflexivity.
  - reflexivity.
  - reflexivity.
Defined.

Lemma X17_witness :
  from_world broken_include_world
             (TransportError (mkURL "file" "" "/mnt/broken.cfg"))
  ∧ ([] : list (LinuxImage URL)) = [].
Proof.
  apply (X17_errors_come_from_the_world broken_include_world 2 "main.cfg"
           mnt).
  vm_compute. reflexivity.
Defined.

Lemma X18_witness :
  IsURLError (NoValidConfig "/mnt") = false
  ∧ (NoValidConfig "/mnt" = NoValidConfig "/mnt"
     ∨ from_world (env [] [] []) (NoValidConfig "/mnt")).
Proof.
  apply (X18_local_probe_errors (env [] [] []) 1 "/mnt"
           (NoValidConfig "/mnt") ([] : list (LinuxImage URL))).
  vm_compute. reflexivity.
Defined.

Lemma X20_witness : ip.one "add" ["address"; "add"] = Some "".
Proof.
  apply (X20_one_exact_match_is_ambiguous "add" "address"
           ["address"; "add"] 1 0); try reflexivity.
  discriminate.
Defined.

Lemma X23_witness :
  appendFile cyclic_world 7 "main.cfg" (newParser mnt) = OutOfFuel.
Proof.
  apply (X23_self_include_diverges cyclic_world "main.cfg" mnt
           (mkURL "file" "" "/mnt/main.cfg")
           (unlines [""; "include main.cfg"; "label A"])
           [""] "include main.cfg" ["label A"]);
    try (vm_compute; reflexivity).
  repeat constructor.
Defined.

Lemma X25_witness :
  handles_fetched full_entry_world
                  (image "A" "" (Some "/mnt/k") (Some "/mnt/i"))
  ∧ ∃ c l, appendFile full_entry_world 1 "main.cfg" (newParser mnt) = Ok c
           ∧ linuxEntries c !! l
             = Some (image "A" "" (Some "/mnt/k") (Some "/mnt/i")).
Proof.
  apply (X25_images_carry_fetched_handles full_entry_world 1 "main.cfg" mnt
           [image "A" "" (Some "/mnt/k") (Some "/mnt/i")]).
  - vm_compute. reflexivity.
  - by left.
Defined.
